(** * Procedural map generator (Remere's Map Editor): noise, island and
    dungeon generation

    Shallow embedding of [source/simplex_noise.cpp] and
    [source/map_generator.cpp], followed by the properties of the generator
    that the specification states.

    Conventions of the embedding.
    - C++ [int] is [Z]; the places where a conversion to an unsigned type
      matters ([size_t] comparisons, the 64-bit seed) are written out.
    - C++ [double] is a type [D] with the operations the sources use
      ([DoubleOps]).  Two instances are given: IEEE binary64
      ([Float64], executable, used to run the code) and the real
      numbers ([RealArith], exact arithmetic, used for the analytic
      properties).
    - The host map ([Map], [Tile], [Item::Create]) and the C++ standard
      library pieces whose results the standard leaves to the
      implementation ([std::hash], [std::stoull] on text,
      [std::uniform_int_distribution], [std::priority_queue]) are
      interfaces; [std::mt19937] is fixed by the standard and is written
      out.
    - A run whose behaviour C++ leaves undefined (a distribution with
      [a > b], an index outside a vector), or that ends in an exception
      (a vector of negative size), has no result: [None]. *)

From Stdlib Require Import ZArith Lia Floats.
From Stdlib Require Reals Lra Psatz Zfloor.
From stdpp Require Import base option list gmap strings.

#[local] Open Scope Z_scope.

(** ** Arithmetic on [double] *)

Class DoubleOps (D : Type) := {
  dadd : D → D → D;
  dsub : D → D → D;
  dmul : D → D → D;
  ddiv : D → D → D;
  dsqrt : D → D;              (* std::sqrt *)
  dpow : D → D → D;           (* std::pow *)
  dlt : D → D → bool;         (* a < b *)
  of_int : Z → D;             (* int -> double *)
  to_int : D → Z              (* static_cast<int> : truncation *)
}.

Declare Scope dbl_scope.
Delimit Scope dbl_scope with dbl.
Infix "+" := dadd : dbl_scope.
Infix "-" := dsub : dbl_scope.
Infix "*" := dmul : dbl_scope.
Infix "/" := ddiv : dbl_scope.
Infix "<?" := dlt : dbl_scope.

(** A decimal literal [n/d] of the sources: the double nearest to the
    rational, which a correctly rounded division of the two exactly
    represented integers yields. *)
Definition dlit `{DoubleOps D} (n d : Z) : D := (of_int n / of_int d)%dbl.

(** [std::min] and [std::max] as the standard defines them. *)
Definition dmin `{DoubleOps D} (a b : D) : D := if (b <? a)%dbl then b else a.
Definition dmax `{DoubleOps D} (a b : D) : D := if (a <? b)%dbl then b else a.

(** *** IEEE binary64 *)

Module IEEE.

Definition INT_MIN : Z := - 2 ^ 31.
Definition INT_MAX : Z := 2 ^ 31 - 1.

Definition float_of_Z (z : Z) : float :=
  match z with
  | Z0 => PrimFloat.zero
  | Zpos _ => PrimFloat.of_uint63 (Uint63.of_Z z)
  | Zneg p => PrimFloat.opp (PrimFloat.of_uint63 (Uint63.of_Z (Zpos p)))
  end.

(** [static_cast<int>]: truncation toward zero.  Outside the range of
    [int] (and for NaN) C++ leaves the result undefined; the value
    taken here is the one of the x86-64 conversion instruction. *)
Definition float_to_int (f : float) : Z :=
  match Prim2SF f with
  | S754_zero _ => 0
  | S754_infinity _ | S754_nan => INT_MIN
  | S754_finite s m e =>
      let mag := if 0 <=? e then Z.shiftl (Zpos m) e else Z.shiftr (Zpos m) (- e) in
      let v := if s then - mag else mag in
      if (INT_MIN <=? v) && (v <=? INT_MAX) then v else INT_MIN
  end.

(** [std::pow] has no counterpart among the primitive operations: it
    is a parameter of the instance. *)
Definition Float64 (pow : float → float → float) : DoubleOps float := {|
  dadd := PrimFloat.add; dsub := PrimFloat.sub;
  dmul := PrimFloat.mul; ddiv := PrimFloat.div;
  dsqrt := PrimFloat.sqrt; dpow := pow;
  dlt := PrimFloat.ltb;
  of_int := float_of_Z; to_int := float_to_int |}.

End IEEE.

(** *** Exact real arithmetic *)

Module Ideal.
Import Reals Zfloor.

Definition Rltb (a b : R) : bool := if Rlt_dec a b then true else false.

(** Truncation toward zero. *)
Definition Rtrunc (x : R) : Z := if Rlt_dec x 0 then Zceil x else Zfloor x.

(** [pow(x, y)] on the reals for a base [x >= 0]: [pow(0, y) = 0] for
    [y > 0], [pow(x, 0) = 1]. *)
Definition Rpow (x y : R) : R :=
  if Req_dec_T y 0 then 1%R
  else if Rle_dec x 0 then 0%R else Rpower x y.

#[export] Instance RealArith : DoubleOps R := {|
  dadd := Rplus; dsub := Rminus; dmul := Rmult; ddiv := Rdiv;
  dsqrt := R_sqrt.sqrt; dpow := Rpow;
  dlt := Rltb;
  of_int := IZR; to_int := Rtrunc |}.

End Ideal.

(** ** [std::mt19937] *)

Module MT.

Definition w32 (z : Z) : Z := z mod 2 ^ 32.

Definition n : nat := 624.
Definition m : nat := 397.
Definition matrix_a : Z := 0x9908B0DF.
Definition upper_mask : Z := 0x80000000.
Definition lower_mask : Z := 0x7FFFFFFF.

Record mt19937 := { mt_x : list Z; mt_i : nat }.

Fixpoint seed_words (k : nat) (i : Z) (prev : Z) : list Z :=
  match k with
  | O => []
  | S k' =>
      let x := w32 (1812433253 * Z.lxor prev (Z.shiftr prev 30) + i) in
      x :: seed_words k' (i + 1) x
  end.

(** [rng.seed(s)] *)
Definition seed (s : Z) : mt19937 :=
  let x0 := w32 s in
  {| mt_x := x0 :: seed_words (n - 1) 1 x0; mt_i := n |}.

Definition twist_at (x : list Z) (i : nat) : list Z :=
  let y := Z.lor (Z.land (nth i x 0) upper_mask)
                 (Z.land (nth ((i + 1) mod n) x 0) lower_mask) in
  let v := Z.lxor (Z.lxor (nth ((i + m) mod n) x 0) (Z.shiftr y 1))
                  (if Z.odd y then matrix_a else 0) in
  <[i := v]> x.

Definition twist (x : list Z) : list Z := foldl twist_at x (seq 0 n).

Definition temper (y : Z) : Z :=
  let y := Z.lxor y (Z.land (Z.shiftr y 11) 0xFFFFFFFF) in
  let y := Z.lxor y (Z.land (w32 (Z.shiftl y 7)) 0x9D2C5680) in
  let y := Z.lxor y (Z.land (w32 (Z.shiftl y 15)) 0xEFC60000) in
  Z.lxor y (Z.shiftr y 18).

(** [rng()] *)
Definition next (g : mt19937) : Z * mt19937 :=
  let '(x, i) := if (n <=? mt_i g)%nat then (twist (mt_x g), O)
                 else (mt_x g, mt_i g) in
  (temper (nth i x 0), {| mt_x := x; mt_i := S i |}).

End MT.

(** ** [SimplexNoise] *)

Module SimplexNoise.

Record t := {
  perm : list Z;        (* int perm[512] *)
  permMod12 : list Z    (* int permMod12[512] *)
}.

Definition swap_at (l : list Z) (i j : nat) : list Z :=
  <[j := nth i l 0]> (<[i := nth j l 0]> l).

(** The Fisher-Yates loop [for (i = 255; i > 0; i--)]. *)
Fixpoint shuffle (i : nat) (p : list Z) (rng : MT.mt19937) : list Z :=
  match i with
  | O => p
  | S i' =>
      let '(r, rng') := MT.next rng in
      let j := r mod (Z.of_nat i + 1) in
      shuffle i' (swap_at p i (Z.to_nat j)) rng'
  end.

Definition initializePermutation (seed : Z) : t :=
  let p := shuffle 255 (seqZ 0 256) (MT.seed seed) in
  {| perm := p ++ p;
     permMod12 := ((λ v, v mod 12) <$> p) ++ ((λ v, v mod 12) <$> p) |}.

(** [SimplexNoise::SimplexNoise(unsigned int seed = 0)] *)
Definition new (seed : Z) : t := initializePermutation seed.

Definition grad3 : list (list Z) :=
  [ [1;1;0]; [-1;1;0]; [1;-1;0]; [-1;-1;0];
    [1;0;1]; [-1;0;1]; [1;0;-1]; [-1;0;-1];
    [0;1;1]; [0;-1;1]; [0;1;-1]; [0;-1;-1] ].

Section Noise.
Context {D : Type} `{DoubleOps D}.
#[local] Open Scope dbl_scope.

Definition F2 : D := dlit 1 2 * (dsqrt (of_int 3) - of_int 1).
Definition G2 : D := (of_int 3 - dsqrt (of_int 3)) / of_int 6.

Definition fastfloor (x : D) : Z :=
  let xi := to_int x in
  if x <? of_int xi then (xi - 1)%Z else xi.

Definition dot (g : list Z) (x y : D) : D :=
  of_int (nth 0 g 0%Z) * x + of_int (nth 1 g 0%Z) * y.

(** One corner: [t = 0.5 - x*x - y*y; if (t < 0) n = 0 else
    { t *= t; n = t * t * dot(grad3[gi], x, y) }]. *)
Definition corner (gi : Z) (x y : D) : D :=
  let t := dlit 1 2 - x * x - y * y in
  if t <? of_int 0 then of_int 0
  else let t2 := t * t in t2 * t2 * dot (nth (Z.to_nat gi) grad3 []) x y.

Definition noise (sn : t) (xin yin : D) : D :=
  let s := (xin + yin) * F2 in
  let i := fastfloor (xin + s) in
  let j := fastfloor (yin + s) in
  let t := of_int (i + j) * G2 in
  let X0 := of_int i - t in
  let Y0 := of_int j - t in
  let x0 := xin - X0 in
  let y0 := yin - Y0 in
  let '(i1, j1) := if y0 <? x0 then (1%Z, 0%Z) else (0%Z, 1%Z) in
  let x1 := x0 - of_int i1 + G2 in
  let y1 := y0 - of_int j1 + G2 in
  let x2 := x0 - of_int 1 + of_int 2 * G2 in
  let y2 := y0 - of_int 1 + of_int 2 * G2 in
  let ii := Z.land i 255 in
  let jj := Z.land j 255 in
  let pm k := nth (Z.to_nat k) (permMod12 sn) 0%Z in
  let pr k := nth (Z.to_nat k) (perm sn) 0%Z in
  let gi0 := pm (ii + pr jj)%Z in
  let gi1 := pm (ii + i1 + pr (jj + j1))%Z in
  let gi2 := pm (ii + 1 + pr (jj + 1))%Z in
  let n0 := corner gi0 x0 y0 in
  let n1 := corner gi1 x1 y1 in
  let n2 := corner gi2 x2 y2 in
  of_int 70 * (n0 + n1 + n2).

(** The octave loop of [fractal]; the state is
    [(value, amplitude, frequency, maxValue)]. *)
Fixpoint fractal_loop (k : nat) (sn : t) (x y persistence lacunarity : D)
    (value amplitude frequency maxValue : D) : D * D :=
  match k with
  | O => (value, maxValue)
  | S k' =>
      let value' := value + noise sn (x * frequency) (y * frequency) * amplitude in
      let maxValue' := maxValue + amplitude in
      fractal_loop k' sn x y persistence lacunarity
        value' (amplitude * persistence) (frequency * lacunarity) maxValue'
  end.

Definition fractal (sn : t) (x y : D) (octaves : Z)
    (persistence lacunarity : D) : D :=
  let '(value, maxValue) :=
    fractal_loop (Z.to_nat octaves) sn x y persistence lacunarity
      (of_int 0) (of_int 1) (of_int 1) (of_int 0) in
  value / maxValue.

End Noise.

End SimplexNoise.

(** ** The host map *)

(** A tile: the ground slot ([Item* ground], the id of the item or null)
    and the stacked items. *)
Record Tile := { ground : option Z; items : list Z }.

(** The map, addressed by [(x, y, floor)]. *)
Abbreviation Map := (gmap (Z * Z * Z) Tile).

(** Modelled from the spec: [Item::Create] (item.h is not among the
    sources); "item creation is by numeric type id via a factory the host
    provides", yielding an item of that id. *)
Definition Item_Create (id : Z) : option Z := Some id.

(** Modelled from the spec: [Map::getTile], [Map::createTileL] with the
    allocator, and [Map::setTile] (map.h is not among the sources):
    "fetch-or-create the tile"; a created tile is empty. *)
Definition getTile (m : Map) (x y z : Z) : option Tile := m !! (x, y, z).
Definition createTile : Tile := {| ground := None; items := [] |}.
Definition setTile (m : Map) (pos : Z * Z * Z) (t : Tile) : Map := <[pos := t]> m.

(** [tile && tile->ground ? tile->ground->getID() : none] *)
Definition groundId (m : Map) (x y z : Z) : option Z :=
  getTile m x y z ≫= ground.

(** ** Configuration *)

Module IslandConfig.
Record t {D : Type} := {
  noise_scale : D;
  noise_octaves : Z;
  noise_persistence : D;
  noise_lacunarity : D;
  island_size : D;
  island_falloff : D;
  island_threshold : D;
  water_id : Z;
  ground_id : Z;
  enable_cleanup : bool;
  min_land_patch_size : Z;
  max_water_hole_size : Z;
  smoothing_passes : Z;
  target_floor : Z
}.
Arguments t : clear implicits.

(** The default member initialisers of the struct. *)
Definition defaults `{DoubleOps D} : t D := {|
  noise_scale := dlit 1 100;
  noise_octaves := 4;
  noise_persistence := dlit 1 2;
  noise_lacunarity := of_int 2;
  island_size := dlit 8 10;
  island_falloff := of_int 2;
  island_threshold := dlit 3 10;
  water_id := 4608;
  ground_id := 4526;
  enable_cleanup := true;
  min_land_patch_size := 4;
  max_water_hole_size := 3;
  smoothing_passes := 2;
  target_floor := 7 |}.
End IslandConfig.

Module DungeonConfig.
Record t {D : Type} := {
  target_floor : Z;
  wall_id : Z;
  floor_id : Z;
  room_count : Z;
  min_room_size : Z;
  max_room_size : Z;
  corridor_width : Z;
  generate_caves : bool;
  cave_scale : D;
  cave_threshold : D;
  enable_cleanup : bool;
  connect_all_rooms : bool;
  add_dead_ends : bool;
  use_smart_pathfinding : bool;
  add_intersections : bool;
  intersection_count : Z;
  intersection_size : Z
}.
Arguments t : clear implicits.

Definition defaults `{DoubleOps D} : t D := {|
  target_floor := 7;
  wall_id := 1030;
  floor_id := 406;
  room_count := 15;
  min_room_size := 5;
  max_room_size := 12;
  corridor_width := 2;
  generate_caves := true;
  cave_scale := dlit 5 100;
  cave_threshold := dlit 4 10;
  enable_cleanup := true;
  connect_all_rooms := true;
  add_dead_ends := true;
  use_smart_pathfinding := true;
  add_intersections := true;
  intersection_count := 5;
  intersection_size := 2 |}.
End DungeonConfig.

(** ** The standard library interface *)

(** [std::stoull] (None: it throws), [std::hash<std::string>] and
    [std::uniform_int_distribution<>(a, b)(rng)].  The distribution
    requires [a <= b]; with [a > b] the behaviour is undefined. *)
Class StdLib := {
  std_stoull : string → option Z;
  std_hash : string → Z;
  uniform_int : Z → Z → MT.mt19937 → option (Z * MT.mt19937);
  uniform_int_range : ∀ a b g v g',
    uniform_int a b g = Some (v, g') → a ≤ v ≤ b;
  uniform_int_defined : ∀ a b g, a ≤ b → is_Some (uniform_int a b g);
  uniform_int_undefined : ∀ a b g, b < a → uniform_int a b g = None
}.

(** [static_cast<size_t>] of an [int], as the comparison
    [rooms.size() < config.room_count] performs it. *)
Definition to_size_t (z : Z) : Z := z mod 2 ^ 64.

(** ** The generator object *)

(** The progress callback [bool(int current, int total)].  It may keep
    state of its own: its answer is a function of the invocations made so
    far, the current one first. *)
Definition ProgressCallback := list (Z * Z) → bool.

Record MapGenerator := {
  noise : SimplexNoise.t;
  progress_callback : option ProgressCallback;
  rng : MT.mt19937
}.

(** What a generation call leaves behind: the returned flag, the host
    map, the invocations of the callback (latest first) and the
    generator. *)
Record Outcome := {
  success : bool;
  host : option Map;
  calls : list (Z * Z);
  generator : MapGenerator
}.

(** [progress_callback && progress_callback(current, total)]: [true] when
    no callback is registered. *)
Definition invoke (cb : option ProgressCallback) (tr : list (Z * Z))
    (current total : Z) : bool * list (Z * Z) :=
  match cb with
  | None => (true, tr)
  | Some f => let tr' := (current, total) :: tr in (f tr', tr')
  end.

Section Seed.
Context `{StdLib}.

Definition numeric_seed_of (seed : string) : Z :=
  match std_stoull seed with
  | Some v => v
  | None => std_hash seed
  end.

Definition seedRandom (seed : string) (g : MapGenerator) : MapGenerator :=
  let numeric_seed := numeric_seed_of seed in
  {| noise := SimplexNoise.new (Z.land numeric_seed 0xFFFFFFFF);
     progress_callback := progress_callback g;
     rng := MT.seed (MT.w32 (Z.lxor (Z.shiftr numeric_seed 32)
                                     (Z.land numeric_seed 0xFFFFFFFF))) |}.

(** [MapGenerator::MapGenerator()] *)
Definition MapGenerator_new : MapGenerator :=
  seedRandom "default"
    {| noise := SimplexNoise.new 0; progress_callback := None; rng := MT.seed 5489 |}.

Definition setProgressCallback (cb : option ProgressCallback) (g : MapGenerator)
    : MapGenerator :=
  {| noise := noise g; progress_callback := cb; rng := rng g |}.

End Seed.

(** The cells of a [width] x [height] rectangle in the order of
    [for y ... for x ...]. *)
Definition cells (width height : Z) : list (Z * Z) :=
  y ← seqZ 0 height; x ← seqZ 0 width; [(x, y)].

Definition in_rect (width height x y : Z) : bool :=
  (0 <=? x) && (x <? width) && (0 <=? y) && (y <? height).

(** [v[y][x]] on a [vector<vector<T>>]. *)
Definition at2 {A} (d : A) (v : list (list A)) (x y : Z) : A :=
  nth (Z.to_nat x) (nth (Z.to_nat y) v []) d.

Definition neighbours4 : list (Z * Z) := [(-1, 0); (1, 0); (0, -1); (0, 1)].
Definition neighbours8 : list (Z * Z) :=
  [(-1, 0); (1, 0); (0, -1); (0, 1); (-1, -1); (-1, 1); (1, -1); (1, 1)].

(** ** Island generation *)

Section Island.
Context {D : Type} `{DoubleOps D} `{StdLib}.
#[local] Open Scope dbl_scope.
Import IslandConfig.

Definition generateHeightMap (sn : SimplexNoise.t) (config : IslandConfig.t D)
    (width height : Z) : list (list D) :=
  (λ y, (λ x,
     let nx := of_int x * noise_scale config in
     let ny := of_int y * noise_scale config in
     let value := SimplexNoise.fractal sn nx ny (noise_octaves config)
                    (noise_persistence config) (noise_lacunarity config) in
     (value + of_int 1) * dlit 1 2) <$> seqZ 0 width) <$> seqZ 0 height.

Definition getDistance (x y centerX centerY : Z) : D :=
  let dx := of_int (x - centerX) in
  let dy := of_int (y - centerY) in
  dsqrt (dx * dx + dy * dy).

Definition applyFalloff (distance falloff : D) : D :=
  if distance <? of_int 0 then of_int 0
  else if of_int 1 <? distance then of_int 1
  else dpow distance falloff.

(** The body of the loop of [applyIslandMask] at the cell [(x, y)]
    holding [h]. *)
Definition maskCell (config : IslandConfig.t D) (width height x y : Z) (h : D) : D :=
  let centerX := of_int width / of_int 2 in
  let centerY := of_int height / of_int 2 in
  let maxRadius := of_int (Z.min width height) / of_int 2 in
  let distance := getDistance x y (to_int centerX) (to_int centerY) in
  let normalizedDistance := distance / (maxRadius * island_size config) in
  let falloff := applyFalloff normalizedDistance (island_falloff config) in
  dmax (of_int 0) (dmin (of_int 1) (h - falloff)).

Definition applyIslandMask (heightMap : list (list D)) (config : IslandConfig.t D)
    (width height : Z) : list (list D) :=
  (λ y, (λ x, maskCell config width height x y (at2 (of_int 0) heightMap x y))
          <$> seqZ 0 width) <$> seqZ 0 height.

(** The body of the loop of [placeTiles], up to the progress tick. *)
Definition placeTile (m : Map) (config : IslandConfig.t D) (h : D)
    (x y offsetX offsetY : Z) : Map :=
  let z := target_floor config in
  let normalized_threshold := (island_threshold config + of_int 1) * dlit 1 2 in
  let tileId := if h <? normalized_threshold then water_id config else ground_id config in
  let pos := ((x + offsetX)%Z, (y + offsetY)%Z, z) in
  let tile := default createTile (m !! pos) in
  setTile m pos {| ground := Item_Create tileId; items := items tile |}.

Fixpoint placeTiles_loop (cb : option ProgressCallback) (heightMap : list (list D))
    (config : IslandConfig.t D) (totalTiles offsetX offsetY : Z)
    (todo : list (Z * Z)) (m : Map) (tr : list (Z * Z)) (tilesPlaced : Z)
    : Map * list (Z * Z) :=
  match todo with
  | [] => (m, tr)
  | (x, y) :: rest =>
      let m' := placeTile m config (at2 (of_int 0 : D) heightMap x y) x y offsetX offsetY in
      let tilesPlaced' := (tilesPlaced + 1)%Z in
      match cb with
      | Some _ =>
          if (tilesPlaced' mod 1000 =? 0)%Z then
            let progress :=
              (40 + to_int (of_int tilesPlaced' / of_int totalTiles * of_int 30)%dbl)%Z in
            let '(ok, tr') := invoke cb tr progress 100 in
            if ok then
              placeTiles_loop cb heightMap config totalTiles offsetX offsetY rest m' tr' tilesPlaced'
            else (m', tr')                      (* return; // Cancelled *)
          else placeTiles_loop cb heightMap config totalTiles offsetX offsetY rest m' tr tilesPlaced'
      | None =>
          placeTiles_loop cb heightMap config totalTiles offsetX offsetY rest m' tr tilesPlaced'
      end
  end.

Definition placeTiles (cb : option ProgressCallback) (m : Map) (heightMap : list (list D))
    (config : IslandConfig.t D) (width height offsetX offsetY : Z) (tr : list (Z * Z))
    : Map * list (Z * Z) :=
  placeTiles_loop cb heightMap config (width * height) offsetX offsetY
    (cells width height) m tr 0.

End Island.

(** ** Terrain cleanup *)

(** A loop body that may have no result, folded over a list. *)
Fixpoint foldlM {A B} (f : A → B → option A) (a : A) (l : list B) : option A :=
  match l with
  | [] => Some a
  | b :: l' => f a b ≫= λ a', foldlM f a' l'
  end.

(** [if (tile && tile->ground) { delete tile->ground;
    tile->ground = Item::Create(id); }] *)
Definition replaceGround (m : Map) (x y z id : Z) : Map :=
  match m !! (x, y, z) with
  | Some t =>
      match ground t with
      | Some _ => <[(x, y, z) := {| ground := Item_Create id; items := items t |}]> m
      | None => m
      end
  | None => m
  end.

(** The body of the loop over the four neighbours of [(cx, cy)], shared
    by [floodFillCount] and the marking loop of [removeSmallPatches]. *)
Definition visitNeighbour (m : Map) (width height z target_id offsetX offsetY cx cy : Z)
    (st : list (Z * Z) * gset (Z * Z)) (d : Z * Z) : list (Z * Z) * gset (Z * Z) :=
  let nx := cx + d.1 in
  let ny := cy + d.2 in
  if negb (in_rect width height nx ny) then st
  else if bool_decide ((nx, ny) ∈ st.2) then st
  else match groundId m (nx + offsetX) (ny + offsetY) z with
       | Some id =>
           if id =? target_id then (st.1 ++ [(nx, ny)], {[(nx, ny)]} ∪ st.2) else st
       | None => st
       end.

(** The [while (!queue.empty())] loop of [floodFillCount]. *)
Fixpoint floodFill_loop (fuel : nat)
    (width height z target_id replacement_id offsetX offsetY : Z)
    (m : Map) (queue : list (Z * Z)) (visited : gset (Z * Z)) (count : Z)
    : option (Z * Map) :=
  match queue with
  | [] => Some (count, m)
  | (cx, cy) :: queue' =>
      match fuel with
      | O => None
      | S fuel' =>
          let m' := if replacement_id =? 0 then m
                    else replaceGround m (cx + offsetX) (cy + offsetY) z replacement_id in
          let st := foldl (visitNeighbour m' width height z target_id offsetX offsetY cx cy)
                      (queue', visited) neighbours4 in
          floodFill_loop fuel' width height z target_id replacement_id offsetX offsetY
            m' st.1 st.2 (count + 1)
      end
  end.

(** Every cell of the rectangle enters the queue at most once, and so does
    the start. *)
Definition floodFill_fuel (width height : Z) : nat := S (Z.to_nat (width * height)).

Definition floodFillCount (m : Map) (x y z width height target_id replacement_id
    offsetX offsetY : Z) : option (Z * Map) :=
  match groundId m (x + offsetX) (y + offsetY) z with
  | None => Some (0, m)
  | Some id =>
      if negb (id =? target_id) then Some (0, m)
      else floodFill_loop (floodFill_fuel width height) width height z target_id
             replacement_id offsetX offsetY m [(x, y)] {[(x, y)]} 0
  end.

(** The marking loop of [removeSmallPatches]; [visited] is the
    [vector<vector<bool>>] of the scan, as the set of its true cells. *)
Fixpoint markRegion_loop (fuel : nat) (m : Map)
    (width height z tile_id offsetX offsetY : Z)
    (queue : list (Z * Z)) (visited : gset (Z * Z)) : option (gset (Z * Z)) :=
  match queue with
  | [] => Some visited
  | (cx, cy) :: queue' =>
      match fuel with
      | O => None
      | S fuel' =>
          let st := foldl (visitNeighbour m width height z tile_id offsetX offsetY cx cy)
                      (queue', visited) neighbours4 in
          markRegion_loop fuel' m width height z tile_id offsetX offsetY st.1 st.2
      end
  end.

(** The body of the scan of [removeSmallPatches] at the cell [c]. *)
Definition removeSmallPatches_cell (tile_id min_size width height offsetX offsetY : Z)
    (st : Map * gset (Z * Z)) (c : Z * Z) : option (Map * gset (Z * Z)) :=
  let z := 7 in
  let opposite_id := if tile_id =? 4608 then 4526 else 4608 in
  if bool_decide (c ∈ st.2) then Some st
  else match groundId st.1 (c.1 + offsetX) (c.2 + offsetY) z with
       | None => Some st
       | Some gid =>
           if negb (gid =? tile_id) then Some st
           else
             r ← floodFillCount st.1 c.1 c.2 z width height tile_id 0 offsetX offsetY;
             let patchSize := r.1 in
             m' ← (if (patchSize <? min_size) && (0 <? patchSize)
                   then snd <$> floodFillCount st.1 c.1 c.2 z width height tile_id
                                  opposite_id offsetX offsetY
                   else Some st.1);
             visited' ← markRegion_loop (floodFill_fuel width height) m'
                          width height z tile_id offsetX offsetY [c] ({[c]} ∪ st.2);
             Some (m', visited')
       end.

(** [visited(height, vector<bool>(width, false))] comes first: a negative
    size converts to a huge [size_t] and the constructor throws, which
    leaves no result. *)
Definition removeSmallPatches (m : Map) (tile_id min_size width height offsetX offsetY : Z)
    : option Map :=
  if (width <? 0) || (height <? 0) then None
  else fst <$> foldlM (removeSmallPatches_cell tile_id min_size width height offsetX offsetY)
                 (m, ∅) (cells width height).

Definition fillSmallHoles (m : Map) (target_id fill_id max_size width height
    offsetX offsetY : Z) : option Map :=
  removeSmallPatches m target_id max_size width height offsetX offsetY.

Section Cleanup.
Context {D : Type}.
Import IslandConfig.

(** The copy [tileIds] that a smoothing pass takes first. *)
Definition snapshot (m : Map) (width height offsetX offsetY z : Z) : list (list Z) :=
  (λ y, (λ x, default 0 (groundId m (x + offsetX) (y + offsetY) z))
          <$> seqZ 0 width) <$> seqZ 0 height.

Definition countNeighbour (config : IslandConfig.t D) (width height : Z)
    (tileIds : list (list Z)) (x y : Z) (n : Z * Z) (d : Z * Z) : Z * Z :=
  let nx := x + d.1 in
  let ny := y + d.2 in
  if negb (in_rect width height nx ny) then n
  else
    let neighborId := at2 0 tileIds nx ny in
    if neighborId =? water_id config then (n.1 + 1, n.2)
    else if neighborId =? ground_id config then (n.1, n.2 + 1)
    else n.

(** The body of the smoothing loop at the interior cell [c]. *)
Definition smoothCell (config : IslandConfig.t D) (width height offsetX offsetY z : Z)
    (tileIds : list (list Z)) (m : Map) (c : Z * Z) : Map :=
  let currentId := at2 0 tileIds c.1 c.2 in
  let n := foldl (countNeighbour config width height tileIds c.1 c.2) (0, 0) neighbours8 in
  let waterCount := n.1 in
  let landCount := n.2 in
  let newId :=
    if (currentId =? water_id config) && (waterCount <? landCount) then ground_id config
    else if (currentId =? ground_id config) && (landCount <? waterCount) then water_id config
    else currentId in
  if newId =? currentId then m
  else match m !! (c.1 + offsetX, c.2 + offsetY, z) with
       | Some t => <[(c.1 + offsetX, c.2 + offsetY, z) :=
                       {| ground := Item_Create newId; items := items t |}]> m
       | None => m
       end.

Definition interior (width height : Z) : list (Z * Z) :=
  y ← seqZ 1 (height - 2); x ← seqZ 1 (width - 2); [(x, y)].

Definition smoothPass (config : IslandConfig.t D) (width height offsetX offsetY : Z)
    (m : Map) : Map :=
  let z := target_floor config in
  let tileIds := snapshot m width height offsetX offsetY z in
  foldl (smoothCell config width height offsetX offsetY z tileIds) m (interior width height).

Definition smoothCoastline (m : Map) (config : IslandConfig.t D)
    (width height offsetX offsetY : Z) : Map :=
  Nat.iter (Z.to_nat (smoothing_passes config))
    (smoothPass config width height offsetX offsetY) m.

Definition cleanupTerrain (cb : option ProgressCallback) (m : Map)
    (config : IslandConfig.t D) (width height offsetX offsetY : Z) (tr : list (Z * Z))
    : option (Map * list (Z * Z)) :=
  m1 ← (if 0 <? min_land_patch_size config
        then removeSmallPatches m (ground_id config) (min_land_patch_size config)
               width height offsetX offsetY
        else Some m);
  let '(ok, tr1) := invoke cb tr 80 100 in
  if negb ok then Some (m1, tr1)
  else
    m2 ← (if 0 <? max_water_hole_size config
          then fillSmallHoles m1 (water_id config) (ground_id config)
                 (max_water_hole_size config) width height offsetX offsetY
          else Some m1);
    let '(ok, tr2) := invoke cb tr1 90 100 in
    if negb ok then Some (m2, tr2)
    else
      Some (if 0 <? smoothing_passes config
            then smoothCoastline m2 config width height offsetX offsetY
            else m2, tr2).

End Cleanup.

Section IslandEntry.
Context {D : Type} `{DoubleOps D} `{StdLib}.
Import IslandConfig.

Definition generateIslandMap (g : MapGenerator) (map : option Map)
    (config : IslandConfig.t D) (width height : Z) (seed : string)
    (startX startY : Z) : option Outcome :=
  match map with
  | None => Some {| success := false; host := None; calls := []; generator := g |}
  | Some m =>
      if (width <=? 0) || (height <=? 0)
      then Some {| success := false; host := Some m; calls := []; generator := g |}
      else
        let g := seedRandom seed g in
        let cb := progress_callback g in
        let stop m tr := Some {| success := false; host := Some m; calls := tr; generator := g |} in
        (* Step 1: height map *)
        let '(ok, tr) := invoke cb [] 0 100 in
        if negb ok then stop m tr
        else
          let heightMap := generateHeightMap (noise g) config width height in
          (* Step 2: island mask *)
          let '(ok, tr) := invoke cb tr 20 100 in
          if negb ok then stop m tr
          else
            let heightMap := applyIslandMask heightMap config width height in
            let offsetX := startX in
            let offsetY := startY in
            (* Step 3: tiles *)
            let '(ok, tr) := invoke cb tr 40 100 in
            if negb ok then stop m tr
            else
              let '(m, tr) := placeTiles cb m heightMap config width height offsetX offsetY tr in
              let finish m tr :=
                let '(_, tr) := invoke cb tr 100 100 in
                Some {| success := true; host := Some m; calls := tr; generator := g |} in
              (* Step 4: cleanup *)
              if enable_cleanup config then
                let '(ok, tr) := invoke cb tr 70 100 in
                if negb ok then stop m tr
                else
                  r ← cleanupTerrain cb m config width height offsetX offsetY tr;
                  finish r.1 r.2
              else finish m tr
  end.

End IslandEntry.

(** ** Loops without an evident bound *)

(** A [while] loop given by its body [step], which either continues with
    a new state or leaves with a result.  [loop_pow n] runs at most [2^n]
    iterations and stops at the first result. *)
Section Loop.
Context {S R : Type} (step : S → S + R).

Fixpoint loop_pow (n : nat) (s : S) : S + R :=
  match n with
  | O => step s
  | Datatypes.S n' =>
      match loop_pow n' s with
      | inl s' => loop_pow n' s'
      | inr r => inr r
      end
  end.


(** The loop, when at most [bound] iterations are needed. *)
Definition while_loop (bound : Z) (s : S) : option R :=
  match loop_pow (Z.to_nat (Z.log2_up bound)) s with
  | inl _ => None
  | inr r => Some r
  end.

End Loop.

(** ** Two-dimensional vectors *)

(** [v[y][x] = a] where the sources check the bounds first (no effect
    outside, which the check excludes). *)
Definition set2 {A} (v : list (list A)) (x y : Z) (a : A) : list (list A) :=
  if (0 <=? x) && (0 <=? y)
  then alter (λ row, <[Z.to_nat x := a]> row) (Z.to_nat y) v
  else v.

(** [v[y][x] = a] without a check: undefined outside the vector. *)
Definition store2 {A} (v : list (list A)) (x y : Z) (a : A) : option (list (list A)) :=
  if (0 <=? x) && (0 <=? y)
     && bool_decide (Z.to_nat x < length (nth (Z.to_nat y) v []))%nat
  then Some (set2 v x y a)
  else None.

(** [vector<vector<T>> v(height, vector<T>(width, a))]: a negative size
    makes the constructor throw. *)
Definition vector2 {A} (width height : Z) (a : A) : option (list (list A)) :=
  if (0 <=? width) && (0 <=? height)
  then Some (replicate (Z.to_nat height) (replicate (Z.to_nat width) a))
  else None.

(** ** Dungeon generation: data *)

Module Room.
Record t := { x : Z; y : Z; w : Z; h : Z }.
Definition cx (r : t) : Z := x r + Z.quot (w r) 2.
Definition cy (r : t) : Z := y r + Z.quot (h r) 2.
Definition intersects (r other : t) : bool :=
  (x r <=? x other + w other) && (x other <=? x r + w r)
  && (y r <=? y other + h other) && (y other <=? y r + h r).
(** [{newRoom.x - 1, newRoom.y - 1, newRoom.w + 2, newRoom.h + 2}] *)
Definition expanded (r : t) : t :=
  {| x := x r - 1; y := y r - 1; w := w r + 2; h := h r + 2 |}.
End Room.

Module Intersection.
Record t := {
  centerX : Z; centerY : Z; size : Z;
  connectionCount : Z; connections : list (Z * Z)
}.
End Intersection.

Module Node.
Record t := { x : Z; y : Z; g : Z; h : Z; parent : Z * Z }.
Definition f (n : t) : Z := g n + h n.
End Node.

(** [std::priority_queue<Node, std::vector<Node>, std::greater<Node>>]:
    [top] is an element of least [f]; which one among several is left to
    the implementation of the heap. *)
Class PriorityQueue (Q : Type) := {
  pq_empty : Q;
  pq_push : Node.t → Q → Q;
  pq_pop : Q → option (Node.t * Q);
  pq_elems : Q → list Node.t;
  pq_elems_empty : pq_elems pq_empty = [];
  pq_elems_push : ∀ n q, pq_elems (pq_push n q) ≡ₚ n :: pq_elems q;
  pq_pop_none : ∀ q, pq_pop q = None → pq_elems q = [];
  pq_pop_some : ∀ q n q', pq_pop q = Some (n, q') →
    pq_elems q ≡ₚ n :: pq_elems q' ∧ Forall (λ k, Node.f n ≤ Node.f k) (pq_elems q)
}.

(** ** Dungeon generation: steps *)

Section Dungeon.
Context {D : Type} `{DoubleOps D} `{StdLib} {Q : Type} `{PriorityQueue Q}.
Import DungeonConfig.

Definition isWallPosition (grid : list (list Z)) (x y width height : Z) : bool :=
  if negb (in_rect width height x y) then false
  else if at2 0 grid x y =? 1 then false
  else existsb (λ d : Z * Z,
         in_rect width height (x + d.1) (y + d.2)
         && (at2 0 grid (x + d.1) (y + d.2) =? 1)) neighbours8.

Fixpoint generateRooms_loop (fuel : nat) (config : DungeonConfig.t D) (width height : Z)
    (rooms : list Room.t) (attempts : Z) (rng : MT.mt19937)
    : option (list Room.t * MT.mt19937) :=
  let max_attempts := room_count config * 10 in
  if (Z.of_nat (length rooms) <? to_size_t (room_count config))
     && (attempts <? max_attempts) then
    match fuel with
    | O => None
    | S fuel' =>
        w ← uniform_int (min_room_size config) (max_room_size config) rng;
        h ← uniform_int (min_room_size config) (max_room_size config) w.2;
        x ← uniform_int 1 (width - w.1 - 2) h.2;
        y ← uniform_int 1 (height - h.1 - 2) x.2;
        let newRoom := {| Room.x := x.1; Room.y := y.1; Room.w := w.1; Room.h := h.1 |} in
        let overlap := existsb (Room.intersects (Room.expanded newRoom)) rooms in
        generateRooms_loop fuel' config width height
          (if overlap then rooms else rooms ++ [newRoom]) (attempts + 1) y.2
    end
  else Some (rooms, rng).

Definition generateRooms (config : DungeonConfig.t D) (width height : Z)
    (rng : MT.mt19937) : option (list Room.t * MT.mt19937) :=
  generateRooms_loop (Z.to_nat (room_count config * 10)) config width height [] 0 rng.

(** *** A* *)

Definition AStar : Type := Q * list (list Z) * list (list (Z * Z)).

(** The body of the loop over the four neighbours of [current]. *)
Definition relax (grid : list (list Z)) (width height x2 y2 : Z) (current : Node.t)
    (st : AStar) (d : Z * Z) : AStar :=
  let '(openSet, gScore, cameFrom) := st in
  let nx := Node.x current + d.1 in
  let ny := Node.y current + d.2 in
  if in_rect width height nx ny then
    let cost := if at2 0 grid nx ny =? 1 then 1 else 5 in
    let tentative_g := at2 0 gScore (Node.x current) (Node.y current) + cost in
    if tentative_g <? at2 0 gScore nx ny then
      let cameFrom' := set2 cameFrom nx ny (Node.x current, Node.y current) in
      let gScore' := set2 gScore nx ny tentative_g in
      let h := Z.abs (x2 - nx) + Z.abs (y2 - ny) in
      (pq_push {| Node.x := nx; Node.y := ny; Node.g := tentative_g; Node.h := h;
                  Node.parent := (Node.x current, Node.y current) |} openSet,
       gScore', cameFrom')
    else st
  else st.

(** The loop [while (cx != -1)] that collects the path, last cell
    first. *)
Fixpoint collectPath (fuel : nat) (cameFrom : list (list (Z * Z))) (cx cy : Z)
    (path : list (Z * Z)) : option (list (Z * Z)) :=
  if cx =? -1 then Some path
  else match fuel with
       | O => None
       | S fuel' =>
           let p := at2 (-1, -1) cameFrom cx cy in
           collectPath fuel' cameFrom p.1 p.2 (path ++ [(cx, cy)])
       end.

(** The body of [while (!openSet.empty())]; the result is the returned
    path ([None]: the collecting loop does not end). *)
Definition astar_step (grid : list (list Z)) (width height x2 y2 : Z) (st : AStar)
    : AStar + option (list (Z * Z)) :=
  let '(openSet, gScore, cameFrom) := st in
  match pq_pop openSet with
  | None => inr (Some [])                                    (* No path *)
  | Some (current, openSet') =>
      if (Node.x current =? x2) && (Node.y current =? y2) then
        inr (reverse <$> collectPath (S (Z.to_nat (width * height))) cameFrom x2 y2 [])
      else
        inl (foldl (relax grid width height x2 y2 current)
               (openSet', gScore, cameFrom) neighbours4)
  end.

(** Every iteration but the last removes an element of the open set, and
    a push lowers an entry of [gScore], which starts at 999999 and stays
    non-negative. *)
Definition astar_bound (width height : Z) : Z := 2 * 999999 * (width * height) + 2.

Definition findShortestPath (grid : list (list Z)) (x1 y1 x2 y2 width height : Z)
    : option (list (Z * Z)) :=
  gScore0 ← vector2 width height 999999;
  cameFrom ← vector2 width height (-1, -1);
  gScore ← store2 gScore0 x1 y1 0;
  let start := {| Node.x := x1; Node.y := y1; Node.g := 0;
                  Node.h := Z.abs (x2 - x1) + Z.abs (y2 - y1);
                  Node.parent := (-1, -1) |} in
  mjoin (while_loop (astar_step grid width height x2 y2) (astar_bound width height)
           (pq_push start pq_empty, gScore, cameFrom)).

(** *** Corridors *)

Definition createCorridorTile (grid : list (list Z)) (x y width height : Z)
    : list (list Z) :=
  if in_rect width height x y then set2 grid x y 1 else grid.

(** [while (c != target) { c += (target > c) ? 1 : -1; body }] *)
Fixpoint walk (fuel : nat) (c target : Z) (body : Z → list (list Z) → list (list Z))
    (grid : list (list Z)) : Z * list (list Z) :=
  if c =? target then (c, grid)
  else match fuel with
       | O => (c, grid)
       | S fuel' =>
           let c' := c + (if c <? target then 1 else -1) in
           walk fuel' c' target body (body c' grid)
       end.

(** [for (int w = 0; w < config.corridor_width; ++w) body(w)] *)
Definition across (config : DungeonConfig.t D) (body : Z → list (list Z) → list (list Z))
    (grid : list (list Z)) : list (list Z) :=
  foldl (λ g w, body w g) grid (seqZ 0 (corridor_width config)).

Definition createImprovedCorridor (grid : list (list Z)) (x1 y1 x2 y2 : Z)
    (config : DungeonConfig.t D) (width height : Z) (rng : MT.mt19937)
    : option (list (list Z) * MT.mt19937) :=
  coin ← uniform_int 0 1 rng;
  let horizontal cy cx :=
    across config (λ w g, createCorridorTile g cx (cy + w) width height) in
  let vertical cx cy :=
    across config (λ w g, createCorridorTile g (cx + w) cy width height) in
  if negb (coin.1 =? 0) then
    let '(cx, grid) := walk (Z.abs_nat (x2 - x1)) x1 x2 (horizontal y1) grid in
    let '(_, grid) :=
      walk (Z.abs_nat (y2 - y1)) y1 y2
        (λ cy g,
           vertical cx cy
             (across config
                (λ w g, createCorridorTile g cx (cy + (if x1 <? x2 then w else 0)) width height)
                g)) grid in
    Some (grid, coin.2)
  else
    let '(cy, grid) := walk (Z.abs_nat (y2 - y1)) y1 y2 (vertical x1) grid in
    let '(_, grid) := walk (Z.abs_nat (x2 - x1)) x1 x2 (horizontal cy) grid in
    Some (grid, coin.2).

Definition createSmartCorridor (grid : list (list Z)) (x1 y1 x2 y2 : Z)
    (config : DungeonConfig.t D) (width height : Z) (rng : MT.mt19937)
    : option (list (list Z) * MT.mt19937) :=
  if use_smart_pathfinding config then
    path ← findShortestPath grid x1 y1 x2 y2 width height;
    match path with
    | [] => createImprovedCorridor grid x1 y1 x2 y2 config width height rng
    | _ =>
        Some (foldl (λ g (p : Z * Z),
                across config (λ dy g,
                  across config (λ dx g,
                    createCorridorTile g (p.1 + dx) (p.2 + dy) width height) g) g)
              grid path, rng)
    end
  else createImprovedCorridor grid x1 y1 x2 y2 config width height rng.

(** *** Intersections *)

Fixpoint generateIntersections_loop (fuel : nat) (config : DungeonConfig.t D)
    (rooms : list Room.t) (width height : Z)
    (intersections : list Intersection.t) (attempts : Z) (rng : MT.mt19937)
    : option (list Intersection.t * MT.mt19937) :=
  if (Z.of_nat (length intersections) <? to_size_t (intersection_count config))
     && (attempts <? 100) then
    match fuel with
    | O => None
    | S fuel' =>
        x ← uniform_int 10 (width - 10) rng;
        y ← uniform_int 10 (height - 10) x.2;
        let near (r : Room.t) :=
          (Room.x r - 5 <=? x.1) && (x.1 <=? Room.x r + Room.w r + 5)
          && (Room.y r - 5 <=? y.1) && (y.1 <=? Room.y r + Room.h r + 5) in
        let far_enough := negb (existsb near rooms) in
        let inter := {| Intersection.centerX := x.1; Intersection.centerY := y.1;
                        Intersection.size := intersection_size config;
                        Intersection.connectionCount := 4;
                        Intersection.connections := [] |} in
        generateIntersections_loop fuel' config rooms width height
          (if far_enough then intersections ++ [inter] else intersections)
          (attempts + 1) y.2
    end
  else Some (intersections, rng).

Definition generateIntersections (config : DungeonConfig.t D) (rooms : list Room.t)
    (width height : Z) (rng : MT.mt19937) : option (list Intersection.t * MT.mt19937) :=
  generateIntersections_loop 100 config rooms width height [] 0 rng.

Definition placeIntersection (grid : list (list Z)) (inter : Intersection.t)
    : list (list Z) :=
  let r := Intersection.size inter in
  let width := Z.of_nat (length (nth 0 grid [])) in
  let height := Z.of_nat (length grid) in
  foldl (λ g (c : Z * Z), createCorridorTile g c.1 c.2 width height) grid
    (y ← seqZ (Intersection.centerY inter - r) (2 * r + 1);
     x ← seqZ (Intersection.centerX inter - r) (2 * r + 1); [(x, y)]).

(** The nearest intersection of a room: the first of least Manhattan
    distance below 999999. *)
Definition nearestIntersection (room : Room.t) (intersections : list Intersection.t)
    : option Intersection.t :=
  (foldl (λ (best : Z * option Intersection.t) inter,
     let d := Z.abs (Room.cx room - Intersection.centerX inter)
              + Z.abs (Room.cy room - Intersection.centerY inter) in
     if d <? best.1 then (d, Some inter) else best)
     (999999, None) intersections).2.

Definition connectRoomsViaIntersections (grid : list (list Z)) (rooms : list Room.t)
    (intersections : list Intersection.t) (config : DungeonConfig.t D)
    (width height : Z) (rng : MT.mt19937) : option (list (list Z) * MT.mt19937) :=
  st ← foldlM (λ (st : list (list Z) * MT.mt19937) room,
          match nearestIntersection room intersections with
          | Some best =>
              createSmartCorridor st.1 (Room.cx room) (Room.cy room)
                (Intersection.centerX best) (Intersection.centerY best)
                config width height st.2
          | None => Some st
          end) (grid, rng) rooms;
  match intersections with
  | [] => None          (* [intersections.size() - 1] wraps around *)
  | _ :: rest =>
      foldlM (λ (st : list (list Z) * MT.mt19937) (p : Intersection.t * Intersection.t),
          createSmartCorridor st.1
            (Intersection.centerX p.1) (Intersection.centerY p.1)
            (Intersection.centerX p.2) (Intersection.centerY p.2)
            config width height st.2) st (zip intersections rest)
  end.

Definition generateCorridors (grid : list (list Z)) (rooms : list Room.t)
    (config : DungeonConfig.t D) (width height : Z) (rng : MT.mt19937)
    : option (list (list Z) * MT.mt19937) :=
  foldlM (λ (st : list (list Z) * MT.mt19937) (p : Room.t * Room.t),
      createSmartCorridor st.1 (Room.cx p.1) (Room.cy p.1) (Room.cx p.2) (Room.cy p.2)
        config width height st.2) (grid, rng) (zip rooms (tail rooms)).

(** *** Dead ends *)

(** [for (int s = 0; s < len; ++s) { x += dx; y += dy; ... }] *)
Fixpoint growDeadEnd (len : nat) (x y dx dy width height : Z) (grid : list (list Z))
    : list (list Z) :=
  match len with
  | O => grid
  | S len' =>
      let x' := x + dx in
      let y' := y + dy in
      growDeadEnd len' x' y' dx dy width height
        (if (0 <? x') && (x' <? width - 1) && (0 <? y') && (y' <? height - 1)
         then set2 grid x' y' 1 else grid)
  end.

Definition addDeadEnd (width height : Z) (st : list (list Z) * MT.mt19937) (i : Z)
    : option (list (list Z) * MT.mt19937) :=
  x ← uniform_int 1 (width - 2) st.2;
  y ← uniform_int 1 (height - 2) x.2;
  if at2 0 st.1 x.1 y.1 =? 1 then
    len ← uniform_int 5 15 y.2;
    dir ← uniform_int 0 3 len.2;
    let dx := if dir.1 =? 0 then 1 else if dir.1 =? 1 then -1 else 0 in
    let dy := if dir.1 =? 2 then 1 else if dir.1 =? 3 then -1 else 0 in
    Some (growDeadEnd (Z.to_nat len.1) x.1 y.1 dx dy width height st.1, dir.2)
  else Some (st.1, y.2).

Definition addDeadEnds (grid : list (list Z)) (config : DungeonConfig.t D)
    (width height : Z) (rng : MT.mt19937) : option (list (list Z) * MT.mt19937) :=
  foldlM (addDeadEnd width height) (grid, rng) (seqZ 0 10).

(** *** The entry point *)

(** The loops that carve a room. *)
Definition carveRoom (grid : list (list Z)) (room : Room.t) : option (list (list Z)) :=
  foldlM (λ g (c : Z * Z), store2 g c.1 c.2 1) grid
    (y ← seqZ (Room.y room) (Room.h room); x ← seqZ (Room.x room) (Room.w room); [(x, y)]).

(** Step 5, the cave overlay: [noise->noise(x * 0.1, y * 0.1)] at a
    cell, and the loop. *)
Definition caveSample (sn : SimplexNoise.t) (x y : Z) : D :=
  SimplexNoise.noise sn (of_int x * dlit 1 10)%dbl (of_int y * dlit 1 10)%dbl.

Definition caveOverlay (sn : SimplexNoise.t) (config : DungeonConfig.t D)
    (grid : list (list Z)) (width height : Z) : list (list Z) :=
  foldl (λ g (c : Z * Z),
      let n := caveSample sn c.1 c.2 in
      if (cave_threshold config <? n)%dbl then set2 g c.1 c.2 1 else g)
    grid (cells width height).

(** [seedRandom(seed); if (noise) delete noise; noise = new SimplexNoise();] *)
Definition resetForDungeon (seed : string) (g : MapGenerator) : MapGenerator :=
  let g := seedRandom seed g in
  {| noise := SimplexNoise.new 0; progress_callback := progress_callback g; rng := rng g |}.

(** Step 6 at one cell. *)
Definition commitCell (config : DungeonConfig.t D) (grid : list (list Z))
    (width height offsetX offsetY : Z) (m : Map) (c : Z * Z) : Map :=
  let type := at2 0 grid c.1 c.2 in
  let pos := (c.1 + offsetX, c.2 + offsetY, target_floor config) in
  let tile := default createTile (m !! pos) in
  let tile' :=
    if type =? 1 then {| ground := Item_Create (floor_id config); items := items tile |}
    else if isWallPosition grid c.1 c.2 width height then
      {| ground := Item_Create (floor_id config);
         items := items tile ++ option_list (Item_Create (wall_id config)) |}
    else {| ground := None; items := items tile |} in
  setTile m pos tile'.

Definition generateDungeonMap (g : MapGenerator) (map : option Map)
    (config : DungeonConfig.t D) (width height : Z) (seed : string)
    (startX startY : Z) : option Outcome :=
  match map with
  | None => Some {| success := false; host := None; calls := []; generator := g |}
  | Some m =>
      let g := resetForDungeon seed g in
      let cb := progress_callback g in
      let stop tr rng' :=
        Some {| success := false; host := Some m; calls := tr;
                generator := {| noise := noise g; progress_callback := cb; rng := rng' |} |} in
      grid ← vector2 width height 0;
      (* 1. rooms *)
      r ← generateRooms config width height (rng g);
      let rooms := r.1 in
      grid ← foldlM carveRoom grid rooms;
      let '(ok, tr) := invoke cb [] 30 100 in
      if negb ok then stop tr r.2
      else
        (* 2. intersections *)
        i ← (if add_intersections config then
               i ← generateIntersections config rooms width height r.2;
               Some (i.1, foldl placeIntersection grid i.1, i.2)
             else Some ([], grid, r.2));
        let '(intersections, grid, rng1) := i in
        (* 3. corridors *)
        st ← (if add_intersections config && negb (bool_decide (intersections = [])) then
                connectRoomsViaIntersections grid rooms intersections config width height rng1
              else generateCorridors grid rooms config width height rng1);
        st ← (if connect_all_rooms config && (1 <? Z.of_nat (length rooms)) then
                generateCorridors st.1 rooms config width height st.2
              else Some st);
        (* 4. dead ends *)
        st ← (if add_dead_ends config then addDeadEnds st.1 config width height st.2
              else Some st);
        let '(ok, tr) := invoke cb tr 60 100 in
        if negb ok then stop tr st.2
        else
          (* 5. caves *)
          let grid := if generate_caves config
                      then caveOverlay (noise g) config st.1 width height else st.1 in
          let '(ok, tr) := invoke cb tr 80 100 in
          if negb ok then stop tr st.2
          else
            (* 6. place on map *)
            let m' := foldl (commitCell config grid width height startX startY) m
                        (cells width height) in
            Some {| success := true; host := Some m'; calls := tr;
                    generator := {| noise := noise g; progress_callback := cb; rng := st.2 |} |}
  end.

End Dungeon.

(** ** Implementations of the interfaces, to run the code *)

Module Reference.

(** The open set as a list; [top] is the first element of least [f]. *)
Fixpoint pop_min (l : list Node.t) : option (Node.t * list Node.t) :=
  match l with
  | [] => None
  | n :: l' =>
      match pop_min l' with
      | None => Some (n, [])
      | Some (k, r) => if Node.f n <=? Node.f k then Some (n, l') else Some (k, n :: r)
      end
  end.

Lemma pop_min_none l : pop_min l = None → l = [].
Proof. destruct l as [|n l]; [done|]. simpl. destruct (pop_min l) as [[k r]|]; [|done]. by case_match. Qed.

Lemma pop_min_some l n r :
  pop_min l = Some (n, r) → l ≡ₚ n :: r ∧ Forall (λ k, Node.f n ≤ Node.f k) l.
Proof.
  revert n r. induction l as [|a l IH]; intros n r; [done|]. simpl.
  destruct (pop_min l) as [[k r']|] eqn:E.
  - destruct (IH _ _ eq_refl) as [Hp Hf].
    destruct (Z.leb_spec (Node.f a) (Node.f k)); intros [= <- <-].
    + split; [done|]. constructor; [lia|].
      eapply Forall_impl; [exact Hf|]. simpl. intros; lia.
    + split.
      * rewrite Hp. apply Permutation_swap.
      * constructor; [lia|done].
  - intros [= <- <-]. apply pop_min_none in E as ->. split; [done|].
    constructor; [lia|constructor].
Qed.

#[export] Instance ListQueue : PriorityQueue (list Node.t) := {|
  pq_empty := [];
  pq_push := cons;
  pq_pop := pop_min;
  pq_elems := λ q, q;
  pq_elems_empty := eq_refl;
  pq_elems_push := λ n q, reflexivity (n :: q);
  pq_pop_none := pop_min_none;
  pq_pop_some := pop_min_some
|}.

(** A seed in decimal digits. *)
Definition digit (c : Ascii.ascii) : option Z :=
  let k := Z.of_nat (Ascii.nat_of_ascii c) in
  if (48 <=? k) && (k <=? 57) then Some (k - 48) else None.

Fixpoint digits (s : string) (acc : Z) : Z :=
  match s with
  | String c s' => match digit c with Some d => digits s' (10 * acc + d) | None => acc end
  | EmptyString => acc
  end.

Definition stoull (s : string) : option Z :=
  match s with
  | String c _ =>
      match digit c with
      | Some _ => let v := digits s 0 in if v <? 2 ^ 64 then Some v else None
      | None => None
      end
  | EmptyString => None
  end.

(** A 64-bit string hash (FNV-1a). *)
Fixpoint hash_from (s : string) (acc : Z) : Z :=
  match s with
  | String c s' =>
      hash_from s' (Z.lxor acc (Z.of_nat (Ascii.nat_of_ascii c)) * 1099511628211 mod 2 ^ 64)
  | EmptyString => acc
  end.

Definition hash (s : string) : Z := hash_from s 14695981039346656037.

(** A value of [a, b] from one output of the engine. *)
Definition uniform (a b : Z) (g : MT.mt19937) : option (Z * MT.mt19937) :=
  if b <? a then None
  else let r := MT.next g in Some (a + r.1 mod (b - a + 1), r.2).

Lemma uniform_range a b g v g' : uniform a b g = Some (v, g') → a ≤ v ≤ b.
Proof.
  unfold uniform. case_match eqn:E; [done|]. intros [= <- <-].
  apply Z.ltb_ge in E. pose proof (Z.mod_pos_bound (MT.next g).1 (b - a + 1)). lia.
Qed.

Lemma uniform_defined a b g : a ≤ b → is_Some (uniform a b g).
Proof. intros Hab. unfold uniform. destruct (Z.ltb_spec b a); [lia|]. eauto. Qed.

Lemma uniform_undefined a b g : b < a → uniform a b g = None.
Proof. intros Hab. unfold uniform. by destruct (Z.ltb_spec b a); [|lia]. Qed.

#[export] Instance Lib : StdLib := {|
  std_stoull := stoull;
  std_hash := hash;
  uniform_int := uniform;
  uniform_int_range := uniform_range;
  uniform_int_defined := uniform_defined;
  uniform_int_undefined := uniform_undefined
|}.

End Reference.

(** * Properties *)

(** ** Input validation and cancellation *)

(** What a caller observes of a call. *)
Definition observable (o : Outcome) : bool * option Map * list (Z * Z) :=
  (success o, host o, calls o).

(** The callback [cb] answered [false] at one of the invocations [tr]
    (latest first) of a call. *)
Definition refused (cb : ProgressCallback) (tr : list (Z * Z)) : bool :=
  existsb (λ k, negb (cb (drop k tr))) (seq 0 (length tr)).

Section Entry.
Context {D : Type} `{DoubleOps D} `{StdLib} {Q : Type} `{PriorityQueue Q}.

Lemma seedRandom_callback seed g :
  progress_callback (seedRandom seed g) = progress_callback g.
Proof. reflexivity. Qed.

(** X1: [generateIslandMap] refuses a null map and a width or height
    that is not positive: it returns [false], invokes no callback and
    leaves the map and the generator as they are. *)
Lemma island_invalid_input g map (config : IslandConfig.t D) width height seed sx sy :
  map = None ∨ width ≤ 0 ∨ height ≤ 0 →
  generateIslandMap g map config width height seed sx sy
  = Some {| success := false; host := map; calls := []; generator := g |}.
Proof.
  intros Hbad. unfold generateIslandMap. destruct map as [m|]; [|done].
  destruct Hbad as [?|Hbad]; [done|].
  by destruct (Z.leb_spec width 0), (Z.leb_spec height 0); try lia.
Qed.

(** X2: [generateDungeonMap] refuses a null map in the same way. *)
Lemma dungeon_null_map g (config : DungeonConfig.t D) width height seed sx sy :
  generateDungeonMap g None config width height seed sx sy
  = Some {| success := false; host := None; calls := []; generator := g |}.
Proof. reflexivity. Qed.

(** A dungeon configuration that draws no random number: no rooms, no
    intersections, no dead ends. *)
Definition emptyDungeon : DungeonConfig.t D :=
  let c := DungeonConfig.defaults in
  {| DungeonConfig.target_floor := DungeonConfig.target_floor c;
     DungeonConfig.wall_id := DungeonConfig.wall_id c;
     DungeonConfig.floor_id := DungeonConfig.floor_id c;
     DungeonConfig.room_count := 0;
     DungeonConfig.min_room_size := DungeonConfig.min_room_size c;
     DungeonConfig.max_room_size := DungeonConfig.max_room_size c;
     DungeonConfig.corridor_width := DungeonConfig.corridor_width c;
     DungeonConfig.generate_caves := DungeonConfig.generate_caves c;
     DungeonConfig.cave_scale := DungeonConfig.cave_scale c;
     DungeonConfig.cave_threshold := DungeonConfig.cave_threshold c;
     DungeonConfig.enable_cleanup := DungeonConfig.enable_cleanup c;
     DungeonConfig.connect_all_rooms := DungeonConfig.connect_all_rooms c;
     DungeonConfig.add_dead_ends := false;
     DungeonConfig.use_smart_pathfinding := DungeonConfig.use_smart_pathfinding c;
     DungeonConfig.add_intersections := false;
     DungeonConfig.intersection_count := DungeonConfig.intersection_count c;
     DungeonConfig.intersection_size := DungeonConfig.intersection_size c |}.

Lemma dungeon_zero_size_no_callback (g : MapGenerator) (m : Map) (seed : string) (sx sy : Z) :
  progress_callback g = None →
  observable <$> generateDungeonMap g (Some m) emptyDungeon 0 0 seed sx sy
  = Some (true, Some m, []).
Proof.
  intros Hcb. unfold generateDungeonMap.
  assert (Hcb' : progress_callback (resetForDungeon seed g) = None) by done.
  rewrite Hcb'. reflexivity.
Qed.

(** C2 (the dungeon entry point lacks the check of the dimensions that
    the island entry point makes): with width and height 0, a non-null
    map, no callback and a configuration that draws no random number,
    [generateDungeonMap] returns [true]; the map is left as it was. *)
Theorem dungeon_accepts_zero_size (m : Map) (seed : string) (sx sy : Z) :
  observable <$> generateDungeonMap MapGenerator_new (Some m) emptyDungeon 0 0 seed sx sy
  = Some (true, Some m, []).
Proof. by apply dungeon_zero_size_no_callback. Qed.


(** X3: the dungeon entry point honours every answer of the callback: a
    run in which the callback answered [false] returns [false]. *)
Lemma dungeon_cancel_returns_false (g : MapGenerator) (map : option Map)
    (config : DungeonConfig.t D) (width height : Z) (seed : string) (sx sy : Z)
    (cb : ProgressCallback) (o : Outcome) :
  progress_callback g = Some cb →
  generateDungeonMap g map config width height seed sx sy = Some o →
  refused cb (calls o) = true →
  success o = false.
Proof.
  intros Hcb Hrun Href. unfold generateDungeonMap in Hrun.
  destruct map as [m|]; [|by injection Hrun as <-].
  assert (Hcb' : progress_callback (resetForDungeon seed g) = Some cb) by done.
  rewrite Hcb' in Hrun. clear Hcb'.
  destruct (vector2 _ _ _) as [grid0|]; [|done]. simpl in Hrun.
  destruct (generateRooms _ _ _ _) as [r|]; [|done]. simpl in Hrun.
  destruct (foldlM carveRoom _ _) as [grid1|]; [|done]. simpl in Hrun.
  destruct (cb [(30, 100)]) eqn:E30; simpl in Hrun; [|by injection Hrun as <-].
  match type of Hrun with (?i ≫= _) = _ => destruct i as [[[ints grid2] rng1]|] end;
    [|done]. simpl in Hrun.
  match type of Hrun with (?i ≫= _) = _ => destruct i as [st1|] end; [|done]. simpl in Hrun.
  match type of Hrun with (?i ≫= _) = _ => destruct i as [st2|] end; [|done]. simpl in Hrun.
  match type of Hrun with (?i ≫= _) = _ => destruct i as [st3|] end; [|done]. simpl in Hrun.
  destruct (cb [(60, 100); (30, 100)]) eqn:E60; simpl in Hrun; [|by injection Hrun as <-].
  destruct (cb [(80, 100); (60, 100); (30, 100)]) eqn:E80; simpl in Hrun;
    [|by injection Hrun as <-].
  injection Hrun as <-. simpl in Href. unfold refused in Href. simpl in Href.
  rewrite E30, E60, E80 in Href. done.
Qed.
(** The default island configuration without the cleanup step. *)
Definition noCleanup : IslandConfig.t D :=
  let c := IslandConfig.defaults in
  {| IslandConfig.noise_scale := IslandConfig.noise_scale c;
     IslandConfig.noise_octaves := IslandConfig.noise_octaves c;
     IslandConfig.noise_persistence := IslandConfig.noise_persistence c;
     IslandConfig.noise_lacunarity := IslandConfig.noise_lacunarity c;
     IslandConfig.island_size := IslandConfig.island_size c;
     IslandConfig.island_falloff := IslandConfig.island_falloff c;
     IslandConfig.island_threshold := IslandConfig.island_threshold c;
     IslandConfig.water_id := IslandConfig.water_id c;
     IslandConfig.ground_id := IslandConfig.ground_id c;
     IslandConfig.enable_cleanup := false;
     IslandConfig.min_land_patch_size := IslandConfig.min_land_patch_size c;
     IslandConfig.max_water_hole_size := IslandConfig.max_water_hole_size c;
     IslandConfig.smoothing_passes := IslandConfig.smoothing_passes c;
     IslandConfig.target_floor := IslandConfig.target_floor c |}.

(** A callback that answers [true] [k] times and [false] from then on. *)
Definition cancelAfter (k : nat) : ProgressCallback := λ tr, (length tr <=? k)%nat.

(** Whether the call left a tile at [(x, y, z)]. *)
Definition placed (o : Outcome) (x y z : Z) : bool :=
  match host o with
  | Some m => bool_decide (is_Some (getTile m x y z))
  | None => false
  end.

(** C1 (the cancellation inside [placeTiles] is lost): on a 50 x 40 island
    without cleanup, with a callback that answers [false] from its fourth
    invocation on (the first tick of [placeTiles], after 1000 tiles),
    [generateIslandMap] returns [true] although the callback answered
    [false]; the tile 1000 is placed and the tile 1001 is not. *)
Theorem island_cancel_ignored (seed : string) :
  let g := setProgressCallback (Some (cancelAfter 3)) MapGenerator_new in
  let r := generateIslandMap g (Some ∅) noCleanup 50 40 seed 0 0 in
  success <$> r = Some true
  ∧ (λ o, refused (cancelAfter 3) (calls o)) <$> r = Some true
  ∧ (λ o, length (calls o)) <$> r = Some 5%nat
  ∧ (λ o, (placed o 49 19 7, placed o 0 20 7)) <$> r = Some (true, false).
Proof. vm_compute. done. Qed.


(** The default island configuration with other tile ids. *)
Definition otherIds : IslandConfig.t D :=
  let c := IslandConfig.defaults in
  {| IslandConfig.noise_scale := IslandConfig.noise_scale c;
     IslandConfig.noise_octaves := IslandConfig.noise_octaves c;
     IslandConfig.noise_persistence := IslandConfig.noise_persistence c;
     IslandConfig.noise_lacunarity := IslandConfig.noise_lacunarity c;
     IslandConfig.island_size := IslandConfig.island_size c;
     IslandConfig.island_falloff := IslandConfig.island_falloff c;
     IslandConfig.island_threshold := IslandConfig.island_threshold c;
     IslandConfig.water_id := 100;
     IslandConfig.ground_id := 101;
     IslandConfig.enable_cleanup := IslandConfig.enable_cleanup c;
     IslandConfig.min_land_patch_size := IslandConfig.min_land_patch_size c;
     IslandConfig.max_water_hole_size := IslandConfig.max_water_hole_size c;
     IslandConfig.smoothing_passes := IslandConfig.smoothing_passes c;
     IslandConfig.target_floor := IslandConfig.target_floor c |}.

(** C3 (the cleanup replaces by the hard-coded ids 4608 and 4526, on the
    hard-coded floor 7): with water id 100 and ground id 101, a 1 x 1
    island on floor 7 with the default cleanup ends, after a call that
    returns [true], with the ground id 4608, whatever the seed and the
    height of the cell. *)
Theorem island_cleanup_third_id (seed : string) :
  (λ o, (success o, host o ≫= λ m, groundId m 0 0 7))
    <$> generateIslandMap MapGenerator_new (Some ∅) otherIds 1 1 seed 0 0
  = Some (true, Some 4608).
Proof.
  unfold generateIslandMap.
  set (g' := seedRandom seed MapGenerator_new).
  change (progress_callback g') with (@None ProgressCallback).
  cbn [Z.leb orb invoke negb Z.compare].
  set (hm := applyIslandMask _ _ _ _). clearbody hm g'.
  unfold placeTiles.
  change (cells 1 1) with [(0, 0)]. cbn [placeTiles_loop].
  unfold placeTile.
  destruct (dlt _ _); vm_compute; reflexivity.
Qed.


(** ** Determinism *)

Lemma seedRandom_forgets seed n1 n2 cb r1 r2 :
  seedRandom seed {| noise := n1; progress_callback := cb; rng := r1 |}
  = seedRandom seed {| noise := n2; progress_callback := cb; rng := r2 |}.
Proof. reflexivity. Qed.

(** C4: a generation call does not depend on the noise table and the
    engine state that earlier calls left in the generator.  With the same
    callback, seed, configuration, dimensions, origin and host map, two
    calls return the same flag and leave the same host map (hence the
    same ground ids) and the same invocations of the callback. *)
Theorem generation_deterministic (n1 n2 : SimplexNoise.t) (r1 r2 : MT.mt19937)
    (cb : option ProgressCallback) (map : option Map)
    (island : IslandConfig.t D) (dungeon : DungeonConfig.t D)
    (width height : Z) (seed : string) (startX startY : Z) :
  let g1 := {| noise := n1; progress_callback := cb; rng := r1 |} in
  let g2 := {| noise := n2; progress_callback := cb; rng := r2 |} in
  observable <$> generateIslandMap g1 map island width height seed startX startY
  = observable <$> generateIslandMap g2 map island width height seed startX startY
  ∧ observable <$> generateDungeonMap g1 map dungeon width height seed startX startY
    = observable <$> generateDungeonMap g2 map dungeon width height seed startX startY.
Proof.
  intros g1 g2. subst g1 g2. split.
  - unfold generateIslandMap. destruct map as [m|]; [|done].
    destruct (_ || _); [done|].
    by rewrite (seedRandom_forgets seed n1 n2 cb r1 r2).
  - unfold generateDungeonMap. destruct map as [m|]; [|done].
    unfold resetForDungeon.
    by rewrite (seedRandom_forgets seed n1 n2 cb r1 r2).
Qed.

(** ** The cave overlay and the seed *)



End Entry.

(** ** Room placement *)

(** The cells of a room, as the carving loops visit them. *)
Definition covers (r : Room.t) (cx cy : Z) : Prop :=
  Room.x r ≤ cx < Room.x r + Room.w r ∧ Room.y r ≤ cy < Room.y r + Room.h r.

Section Rooms.
Context {D : Type} `{StdLib}.
Implicit Types (config : DungeonConfig.t D) (rooms : list Room.t).

Definition room_inside (width height : Z) (r : Room.t) : Prop :=
  1 ≤ Room.x r ∧ Room.x r + Room.w r ≤ width - 2
  ∧ 1 ≤ Room.y r ∧ Room.y r + Room.h r ≤ height - 2.

Definition rooms_apart rooms : Prop :=
  ∀ (i j : nat) r1 r2, (i < j)%nat → rooms !! i = Some r1 → rooms !! j = Some r2 →
    Room.intersects (Room.expanded r2) r1 = false.

Lemma rooms_apart_snoc rooms r :
  rooms_apart rooms →
  existsb (Room.intersects (Room.expanded r)) rooms = false →
  rooms_apart (rooms ++ [r]).
Proof.
  intros Hap Hex i j r1 r2 Hij H1 H2.
  destruct (decide (j < length rooms)%nat) as [Hj|Hj].
  - rewrite lookup_app_l in H1, H2 by lia. eauto.
  - assert (j = length rooms) as ->.
    { apply lookup_lt_Some in H2. rewrite length_app in H2. simpl in H2. lia. }
    rewrite lookup_app_l in H1 by lia.
    rewrite lookup_app_r, Nat.sub_diag in H2 by lia. injection H2 as <-.
    destruct (Room.intersects (Room.expanded r) r1) eqn:E; [|done].
    assert (existsb (Room.intersects (Room.expanded r)) rooms = true); [|congruence].
    apply existsb_exists. exists r1. split; [|done].
    apply list_elem_of_In, list_elem_of_lookup. eauto.
Qed.

Lemma generateRooms_loop_inv fuel config width height rooms attempts rng rooms' rng' :
  Forall (room_inside width height) rooms → rooms_apart rooms →
  generateRooms_loop fuel config width height rooms attempts rng = Some (rooms', rng') →
  Forall (room_inside width height) rooms' ∧ rooms_apart rooms'.
Proof.
  revert rooms attempts rng. induction fuel as [|fuel IH]; intros rooms attempts rng Hin Hap;
    simpl; destruct (_ && _); try done; try (by intros [= <- <-]).
  intros Hrun.
  destruct (uniform_int _ _ rng) as [[w g1]|] eqn:Ew; [|done]. simpl in Hrun.
  destruct (uniform_int _ _ g1) as [[h g2]|] eqn:Eh; [|done]. simpl in Hrun.
  destruct (uniform_int _ _ g2) as [[x g3]|] eqn:Ex; [|done]. simpl in Hrun.
  destruct (uniform_int _ _ g3) as [[y g4]|] eqn:Ey; [|done]. simpl in Hrun.
  apply uniform_int_range in Ex, Ey.
  destruct (existsb _ rooms) eqn:Eov; [by eapply IH|].
  eapply IH; [| |exact Hrun].
  - apply Forall_app. split; [done|]. constructor; [|constructor].
    unfold room_inside; simpl. lia.
  - by apply rooms_apart_snoc.
Qed.

Lemma apart_disjoint r1 r2 cx cy :
  Room.intersects (Room.expanded r2) r1 = false →
  ¬ (covers (Room.expanded r1) cx cy ∧ covers (Room.expanded r2) cx cy).
Proof.
  unfold Room.intersects, covers, Room.expanded. simpl.
  intros Hno [[? ?] [? ?]].
  repeat (apply andb_false_iff in Hno as [Hno|Hno]); apply Z.leb_gt in Hno; lia.
Qed.

(** C5: in a room list that [generateRooms] returns, every cell of every
    room has its column in [1, width - 3] and its row in [1, height - 3],
    and the rectangles of two distinct rooms, each expanded by one tile
    on every side, share no cell. *)
Theorem generateRooms_inside_and_apart config width height rng rooms rng' :
  generateRooms config width height rng = Some (rooms, rng') →
  (∀ r cx cy, r ∈ rooms → covers r cx cy →
     1 ≤ cx < width - 2 ∧ 1 ≤ cy < height - 2)
  ∧ (∀ (i j : nat) r1 r2 cx cy, i ≠ j → rooms !! i = Some r1 → rooms !! j = Some r2 →
       ¬ (covers (Room.expanded r1) cx cy ∧ covers (Room.expanded r2) cx cy)).
Proof.
  intros Hrun. apply generateRooms_loop_inv in Hrun as [Hin Hap];
    [|constructor|by intros i j r1 r2 _ Hi; rewrite lookup_nil in Hi].
  split.
  - intros r cx cy Hr [? ?]. rewrite Forall_forall in Hin.
    destruct (Hin r Hr) as (? & ? & ? & ?). lia.
  - intros i j r1 r2 cx cy Hij H1 H2.
    destruct (decide (i < j)%nat).
    + eapply apart_disjoint, Hap; eauto.
    + intros [? ?]. eapply (apart_disjoint r2 r1); [eapply (Hap j i)|]; eauto with lia.
Qed.

(** The run is defined when every drawn room fits. *)
Lemma generateRooms_loop_defined fuel config width height rooms attempts rng :
  DungeonConfig.min_room_size config ≤ DungeonConfig.max_room_size config →
  DungeonConfig.max_room_size config ≤ width - 3 →
  DungeonConfig.max_room_size config ≤ height - 3 →
  DungeonConfig.room_count config * 10 - attempts ≤ Z.of_nat fuel →
  is_Some (generateRooms_loop fuel config width height rooms attempts rng).
Proof.
  intros Hmm Hw Hh. revert rooms attempts rng.
  induction fuel as [|fuel IH]; intros rooms attempts rng Hfuel; simpl.
  - destruct (_ <? to_size_t _); simpl; [|by eauto].
    destruct (Z.ltb_spec attempts (DungeonConfig.room_count config * 10)); [lia|by eauto].
  - destruct (_ && _); [|by eauto].
    destruct (uniform_int_defined (DungeonConfig.min_room_size config)
                (DungeonConfig.max_room_size config) rng Hmm) as [[w g1] Ew].
    rewrite Ew. simpl. pose proof (uniform_int_range _ _ _ _ _ Ew).
    destruct (uniform_int_defined (DungeonConfig.min_room_size config)
                (DungeonConfig.max_room_size config) g1 Hmm) as [[h g2] Eh].
    rewrite Eh. simpl. pose proof (uniform_int_range _ _ _ _ _ Eh).
    destruct (uniform_int_defined 1 (width - w - 2) g2 ltac:(lia)) as [[x g3] Ex].
    rewrite Ex. simpl.
    destruct (uniform_int_defined 1 (height - h - 2) g3 ltac:(lia)) as [[y g4] Ey].
    rewrite Ey. simpl. apply IH. lia.
Qed.

(** X4: when the largest room fits the domain with its margin, every
    distribution that [generateRooms] builds is well-formed and the run
    has a result. *)
Lemma generateRooms_defined config width height rng :
  DungeonConfig.min_room_size config ≤ DungeonConfig.max_room_size config →
  DungeonConfig.max_room_size config ≤ width - 3 →
  DungeonConfig.max_room_size config ≤ height - 3 →
  is_Some (generateRooms config width height rng).
Proof. intros. apply generateRooms_loop_defined; try done. lia. Qed.

End Rooms.

(** The default dungeon configuration over binary64. *)
Definition defaultDungeon : DungeonConfig.t float :=
  @DungeonConfig.defaults float (IEEE.Float64 (λ x _, x)).

Lemma generateRooms_witness :
  ∃ rooms rng',
    @generateRooms float Reference.Lib defaultDungeon 40 40 (MT.seed 1) = Some (rooms, rng')
    ∧ length rooms = 7%nat
    ∧ (∀ r cx cy, r ∈ rooms → covers r cx cy → 1 ≤ cx < 40 - 2 ∧ 1 ≤ cy < 40 - 2).
Proof.
  eexists _, _. split; [vm_compute; reflexivity|]. split; [reflexivity|].
  eapply (@generateRooms_inside_and_apart float Reference.Lib defaultDungeon 40 40 (MT.seed 1)).
  vm_compute. reflexivity.
Defined.

(** ** Loops *)

Section LoopFacts.
Context {S R : Type} (step : S → S + R).







End LoopFacts.

(** ** Two-dimensional vectors *)

Lemma in_rect_spec w h x y : in_rect w h x y = true ↔ 0 ≤ x < w ∧ 0 ≤ y < h.
Proof. unfold in_rect. rewrite !andb_true_iff, !Z.leb_le, !Z.ltb_lt. lia. Qed.

Section Vec2.
Context {A : Type}.
Implicit Types (v : list (list A)) (row : list A).












End Vec2.









(** ** The pathfinder on a grid without floor *)







Section AStarVoid.
Context {Q : Type} `{PriorityQueue Q}.
Variables (grid : list (list Z)) (width height x1 y1 x2 y2 : Z).
Hypothesis Hvoid : ∀ x y, in_rect width height x y = true → at2 0 grid x y = 0.
Hypothesis Hstart : in_rect width height x1 y1 = true.
Hypothesis Hgoal : in_rect width height x2 y2 = true.

#[local] Abbreviation inr_ x y := (in_rect width height x y = true).
#[local] Abbreviation State := (Q * list (list Z) * list (list (Z * Z)))%type.































End AStarVoid.








(** ** Connected components and the flood fill *)

Lemma foldl_congr {A B} (f g : A → B → A) (a : A) (l : list B) :
  (∀ a b, f a b = g a b) → foldl f a l = foldl g a l.
Proof. intros Hfg. revert a. induction l as [|b l IH]; intros a; simpl; [done|]. by rewrite Hfg, IH. Qed.

Lemma elem_of_cells width height (c : Z * Z) :
  c ∈ cells width height ↔ in_rect width height c.1 c.2 = true.
Proof.
  unfold cells. rewrite in_rect_spec, list_elem_of_bind. split.
  - intros (y & Hc & Hy). apply list_elem_of_bind in Hc as (x & Hc & Hx).
    apply list_elem_of_singleton in Hc as ->.
    apply elem_of_seqZ in Hx, Hy. simpl. lia.
  - intros [Hx Hy]. exists c.2. split; [|apply elem_of_seqZ; lia].
    apply list_elem_of_bind. exists c.1. split; [|apply elem_of_seqZ; lia].
    destruct c. apply list_elem_of_singleton. done.
Qed.

Lemma length_row (y : Z) (xs : list Z) : length (x ← xs; [(x, y)]) = length xs.
Proof. induction xs as [|x xs IH]; [done|]. rewrite bind_cons. simpl. by rewrite IH. Qed.

Lemma length_rows (width : Z) (ys : list Z) :
  length (y ← ys; x ← seqZ 0 width; [(x, y)]) = (length ys * Z.to_nat width)%nat.
Proof.
  induction ys as [|y ys IH]; [done|].
  rewrite bind_cons, length_app, IH, length_row, length_seqZ. simpl. lia.
Qed.

Lemma length_cells width height :
  0 ≤ width → 0 ≤ height → length (cells width height) = Z.to_nat (width * height).
Proof. intros Hw Hh. unfold cells. rewrite length_rows, length_seqZ. lia. Qed.

(** Distinct cells of the rectangle are at most [width * height]. *)
Lemma cells_bound width height (l : list (Z * Z)) :
  NoDup l → (∀ c, c ∈ l → in_rect width height c.1 c.2 = true) →
  (length l ≤ Z.to_nat (width * height))%nat.
Proof.
  intros Hnd Hin. destruct l as [|c0 l0] eqn:El; [simpl; lia|]. rewrite <- El in *.
  assert (in_rect width height c0.1 c0.2 = true) as [? ?]%in_rect_spec.
  { apply Hin. rewrite El. by left. }
  rewrite <- length_cells by lia. apply submseteq_length, NoDup_submseteq; [done|].
  intros c Hc. by apply elem_of_cells, Hin.
Qed.

Section BFS.
Variables (width height : Z) (ok : Z * Z → bool).
#[local] Abbreviation cell := (Z * Z)%type.

(** The cells joined to [c] by 4-neighbour steps over cells of the
    rectangle that satisfy [ok]. *)
Inductive connected (c : cell) : cell → Prop :=
  | connected_refl : connected c c
  | connected_step n d :
      connected c n → d ∈ neighbours4 →
      in_rect width height (n.1 + d.1) (n.2 + d.2) = true →
      ok (n.1 + d.1, n.2 + d.2) = true →
      connected c (n.1 + d.1, n.2 + d.2).

(** The traversal that [floodFillCount] and the marking loop share, on
    the test [ok], keeping the cells taken from the queue. *)
Definition visitA (c : cell) (st : list cell * gset cell) (d : cell) : list cell * gset cell :=
  let n := (c.1 + d.1, c.2 + d.2) in
  if negb (in_rect width height (c.1 + d.1) (c.2 + d.2)) then st
  else if bool_decide (n ∈ st.2) then st
  else if ok n then (st.1 ++ [n], {[n]} ∪ st.2) else st.

Fixpoint bfsA (fuel : nat) (queue : list cell) (visited : gset cell) (popped : list cell)
    : option (list cell * gset cell) :=
  match queue with
  | [] => Some (popped, visited)
  | c :: queue' =>
      match fuel with
      | O => None
      | S fuel' =>
          let st := foldl (visitA c) (queue', visited) neighbours4 in
          bfsA fuel' st.1 st.2 (popped ++ [c])
      end
  end.

Lemma bfsA_cons fuel c queue visited popped :
  bfsA (S fuel) (c :: queue) visited popped
  = bfsA fuel (foldl (visitA c) (queue, visited) neighbours4).1
      (foldl (visitA c) (queue, visited) neighbours4).2 (popped ++ [c]).
Proof. reflexivity. Qed.

(** The invariant of the traversal from [c0], entered with the cells
    [V0] already marked. *)
Definition BI (V0 : gset cell) (c0 : cell) (queue : list cell) (visited : gset cell)
    (popped : list cell) : Prop :=
  NoDup (popped ++ queue)
  ∧ (∀ v, v ∈ visited ↔ v ∈ V0 ∨ v ∈ (popped ++ queue))
  ∧ (∀ v, v ∈ (popped ++ queue) → (v ∉ V0) ∧ (in_rect width height v.1 v.2 = true) ∧ connected c0 v)
  ∧ c0 ∈ (popped ++ queue).

Definition closed (visited : gset cell) (popped : list cell) : Prop :=
  ∀ (p d : cell), p ∈ popped → d ∈ neighbours4 →
    in_rect width height (p.1 + d.1) (p.2 + d.2) = true →
    ok (p.1 + d.1, p.2 + d.2) = true → (p.1 + d.1, p.2 + d.2) ∈ visited.

Lemma visitA_spec (V0 : gset cell) (c0 p d : cell) queue visited popped :
  BI V0 c0 queue visited popped → p ∈ popped → d ∈ neighbours4 →
  let st := visitA p (queue, visited) d in
  BI V0 c0 st.1 st.2 popped ∧ visited ⊆ st.2
  ∧ (in_rect width height (p.1 + d.1) (p.2 + d.2) = true →
     ok (p.1 + d.1, p.2 + d.2) = true → (p.1 + d.1, p.2 + d.2) ∈ st.2).
Proof.
  intros HBI Hp Hd. pose proof HBI as (Hnd & Hvis & Hall & Hc0). unfold visitA. simpl.
  set (n := (p.1 + d.1, p.2 + d.2)).
  destruct (in_rect width height (p.1 + d.1) (p.2 + d.2)) eqn:Hin; simpl;
    [|split; [done|split; [done|done]]].
  destruct (bool_decide (n ∈ visited)) eqn:Hnv; simpl.
  { apply bool_decide_eq_true in Hnv. split; [done|split; [done|done]]. }
  apply bool_decide_eq_false in Hnv.
  destruct (ok n) eqn:Hok; simpl; [|split; [done|split; [done|done]]].
  assert (Hfresh : (n ∉ V0) ∧ (n ∉ (popped ++ queue))).
  { split; intros ?; apply Hnv, Hvis; auto. }
  destruct Hfresh as [HnV0 Hnpq].
  split; [|split; [set_solver|intros _ _; set_solver]].
  split; [|split; [|split]].
  - rewrite (assoc_L (++)). apply NoDup_app. split; [done|]. split; [|apply NoDup_singleton].
    intros x Hx ->%list_elem_of_singleton. done.
  - intros v. rewrite elem_of_union, elem_of_singleton, Hvis, !elem_of_app,
      list_elem_of_singleton. tauto.
  - intros v. rewrite (assoc_L (++)), elem_of_app, list_elem_of_singleton.
    intros [Hv| ->]; [by apply Hall|]. split; [done|]. split; [done|].
    apply connected_step; try done. apply Hall, elem_of_app. by left.
  - rewrite (assoc_L (++)), elem_of_app. by left.
Qed.

Lemma visitA_fold (V0 : gset cell) (c0 p : cell) (ds : list cell) queue visited popped :
  BI V0 c0 queue visited popped → p ∈ popped → (∀ d, d ∈ ds → d ∈ neighbours4) →
  let st := foldl (visitA p) (queue, visited) ds in
  BI V0 c0 st.1 st.2 popped ∧ visited ⊆ st.2
  ∧ (∀ d : cell, d ∈ ds → in_rect width height (p.1 + d.1) (p.2 + d.2) = true →
       ok (p.1 + d.1, p.2 + d.2) = true → (p.1 + d.1, p.2 + d.2) ∈ st.2).
Proof.
  intros HBI Hp. revert queue visited HBI.
  induction ds as [|d ds IH]; intros queue visited HBI Hds; simpl.
  - split; [done|]. split; [done|]. intros d Hd. by apply elem_of_nil in Hd.
  - destruct (visitA_spec V0 c0 p d queue visited popped HBI Hp) as (HBI1 & Hsub1 & Hd1).
    { apply Hds. by left. }
    destruct (visitA p (queue, visited) d) as [q1 v1] eqn:E1. simpl in *.
    destruct (IH q1 v1 HBI1) as (HBI2 & Hsub2 & Hd2).
    { intros d' Hd'. apply Hds. by right. }
    split; [done|]. split; [set_solver|].
    intros d' [->|Hd']%elem_of_cons Hin Hok; [|by apply Hd2].
    apply Hsub2. by apply Hd1.
Qed.

(** The traversal ends within the fuel, with the invariant. *)
Lemma bfsA_spec (V0 : gset cell) (c0 : cell) (fuel : nat) queue visited popped :
  BI V0 c0 queue visited popped → closed visited popped →
  (Z.to_nat (width * height) ≤ fuel + length popped)%nat →
  ∃ P V, bfsA fuel queue visited popped = Some (P, V)
         ∧ BI V0 c0 [] V P ∧ closed V P ∧ visited ⊆ V.
Proof.
  revert queue visited popped.
  induction fuel as [|fuel IH]; intros queue visited popped HBI Hcl Hfuel.
  - destruct queue as [|p queue]; [by exists popped, visited|]. exfalso.
    destruct HBI as (Hnd & _ & Hall & _).
    pose proof (cells_bound width height _ Hnd (λ c Hc, proj1 (proj2 (Hall c Hc)))) as Hb.
    rewrite length_app in Hb. simpl in *. lia.
  - destruct queue as [|p queue]; [by exists popped, visited|]. rewrite bfsA_cons.
    assert (HBI' : BI V0 c0 queue visited (popped ++ [p])).
    { destruct HBI as (Hnd & Hvis & Hall & Hc0).
      unfold BI. rewrite <- (assoc_L (++)). simpl. done. }
    destruct (visitA_fold V0 c0 p neighbours4 queue visited (popped ++ [p]) HBI')
      as (HBI1 & Hsub1 & Hd1); [apply elem_of_app; right; by left|done|].
    destruct (foldl (visitA p) (queue, visited) neighbours4) as [q1 v1] eqn:E1. simpl in *.
    destruct (IH q1 v1 (popped ++ [p]) HBI1) as (P & V & Hrun & HBIF & HclF & HsubF).
    + intros x d [Hx| ->%list_elem_of_singleton]%elem_of_app Hd Hin Hok.
      * apply Hsub1. by apply Hcl.
      * by apply Hd1.
    + rewrite length_app. simpl. lia.
    + exists P, V. split; [done|]. split; [done|]. split; [done|]. set_solver.
Qed.

(** From a cell that [V0] does not touch, the traversal collects the
    component. *)
Lemma bfsA_component (V0 : gset cell) (c0 : cell) (P : list cell) (V : gset cell) :
  BI V0 c0 [] V P → closed V P → (∀ v, v ∈ V0 → ¬ connected c0 v) →
  ∀ v, v ∈ P ↔ connected c0 v.
Proof.
  intros (Hnd & Hvis & Hall & Hc0) Hcl Hdisj v. rewrite app_nil_r in *. split.
  - intros Hv. by apply Hall.
  - induction 1 as [|n d Hn IH Hd Hin Hok]; [done|].
    specialize (Hcl n d IH Hd Hin Hok). apply Hvis in Hcl as [HV0|?]; [|done].
    exfalso. apply (Hdisj _ HV0). by apply connected_step.
Qed.

Lemma BI_start (V0 : gset cell) (c0 : cell) :
  in_rect width height c0.1 c0.2 = true → c0 ∉ V0 → BI V0 c0 [c0] ({[c0]} ∪ V0) [].
Proof.
  intros Hin Hc0. split; [apply NoDup_singleton|]. split; [|split].
  - intros v. simpl. rewrite elem_of_union, elem_of_singleton, list_elem_of_singleton. tauto.
  - intros v ->%list_elem_of_singleton. split; [done|]. split; [done|]. constructor.
  - simpl. by left.
Qed.

End BFS.

(** *** The traversals of the sources are this traversal *)

Lemma groundId_replaceGround_ne (m : Map) (x y z id x' y' z' : Z) :
  (x, y, z) ≠ (x', y', z') → groundId (replaceGround m x y z id) x' y' z' = groundId m x' y' z'.
Proof.
  intros Hne. unfold replaceGround, groundId, getTile.
  destruct (m !! (x, y, z)) as [t|] eqn:E; [|done].
  destruct (ground t); [|done]. by rewrite lookup_insert_ne.
Qed.

Lemma groundId_replaceGround_eq (m : Map) (x y z id : Z) :
  is_Some (groundId m x y z) → groundId (replaceGround m x y z id) x y z = Some id.
Proof.
  intros [g Hg]. unfold replaceGround, groundId, getTile in *.
  destruct (m !! (x, y, z)) as [t|] eqn:E; [|done]. simpl in Hg. rewrite Hg.
  by rewrite lookup_insert_eq.
Qed.

Section Patches.
Variables (width height z tile_id offsetX offsetY : Z).
#[local] Abbreviation cell := (Z * Z)%type.

(** The cell holds the target id. *)
Definition tgt (m : Map) (c : cell) : bool :=
  bool_decide (groundId m (c.1 + offsetX) (c.2 + offsetY) z = Some tile_id).

(** The map after the ground of the cells [l] was replaced. *)
Definition replaceCells (repl : Z) (m : Map) (l : list cell) : Map :=
  if repl =? 0 then m
  else foldl (λ m' c, replaceGround m' (c.1 + offsetX) (c.2 + offsetY) z repl) m l.

Lemma replaceCells_snoc (repl : Z) (m : Map) (l : list cell) (c : cell) :
  replaceCells repl m (l ++ [c])
  = if repl =? 0 then replaceCells repl m l
    else replaceGround (replaceCells repl m l) (c.1 + offsetX) (c.2 + offsetY) z repl.
Proof. unfold replaceCells. destruct (repl =? 0); [done|]. by rewrite foldl_app. Qed.

Lemma groundId_replaceCells_notin (repl : Z) (m : Map) (l : list cell) (c : cell) :
  c ∉ l → groundId (replaceCells repl m l) (c.1 + offsetX) (c.2 + offsetY) z
          = groundId m (c.1 + offsetX) (c.2 + offsetY) z.
Proof.
  unfold replaceCells. destruct (repl =? 0); [done|].
  induction l as [|a l IH] using rev_ind; [done|].
  intros Hc. apply not_elem_of_app in Hc as [Hl Ha]. rewrite foldl_app. simpl.
  rewrite groundId_replaceGround_ne; [by apply IH|].
  intros [= ? ?]. apply Ha, list_elem_of_singleton. destruct a, c. simpl in *. f_equal; lia.
Qed.

Lemma groundId_replaceCells_in (repl : Z) (m : Map) (l : list cell) (c : cell) :
  repl ≠ 0 → c ∈ l → is_Some (groundId m (c.1 + offsetX) (c.2 + offsetY) z) →
  groundId (replaceCells repl m l) (c.1 + offsetX) (c.2 + offsetY) z = Some repl.
Proof.
  intros Hrepl. unfold replaceCells. destruct (Z.eqb_spec repl 0); [done|].
  induction l as [|a l IH] using rev_ind; [by intros ?%elem_of_nil|].
  intros Hc Hsome. rewrite foldl_app. simpl.
  destruct (decide (a = c)) as [->|Hne].
  - apply groundId_replaceGround_eq.
    destruct (decide (c ∈ l)) as [Hin|Hnin]; [by rewrite IH|].
    pose proof (groundId_replaceCells_notin repl m l c Hnin) as Heq.
    unfold replaceCells in Heq. destruct (Z.eqb_spec repl 0); [done|]. by rewrite Heq.
  - rewrite groundId_replaceGround_ne.
    + apply IH; [|done]. apply elem_of_app in Hc as [?|?%list_elem_of_singleton]; done.
    + intros [= ? ?]. apply Hne. destruct a, c. simpl in *. f_equal; lia.
Qed.

Lemma visit_sim (m1 m0 : Map) (cx cy : Z) (st : list cell * gset cell) (d : cell) :
  (∀ n : cell, n ∉ st.2 → groundId m1 (n.1 + offsetX) (n.2 + offsetY) z
                          = groundId m0 (n.1 + offsetX) (n.2 + offsetY) z) →
  visitNeighbour m1 width height z tile_id offsetX offsetY cx cy st d
  = visitA width height (tgt m0) (cx, cy) st d.
Proof.
  intros Hagree. unfold visitNeighbour, visitA, tgt. cbn [fst snd].
  destruct (negb _); [done|].
  destruct (bool_decide ((cx + d.1, cy + d.2) ∈ st.2)) eqn:Hv; [done|].
  apply bool_decide_eq_false in Hv. specialize (Hagree _ Hv).
  cbn [fst snd] in Hagree |- *. rewrite Hagree.
  destruct (groundId m0 _ _ _) as [id|].
  - destruct (Z.eqb_spec id tile_id) as [->|Hne].
    + by rewrite bool_decide_eq_true_2.
    + rewrite bool_decide_eq_false_2; [done|]. congruence.
  - by rewrite bool_decide_eq_false_2.
Qed.

Lemma visitA_grows (ok : cell → bool) (c : cell) (st : list cell * gset cell) (d : cell) :
  st.2 ⊆ (visitA width height ok c st d).2
  ∧ (list_to_set st.1 ⊆ st.2 →
     list_to_set (C := gset cell) (visitA width height ok c st d).1
       ⊆ (visitA width height ok c st d).2).
Proof.
  unfold visitA. destruct (negb _); [done|]. destruct (bool_decide _); [done|].
  destruct (ok _); [|done]. simpl. split; [set_solver|].
  rewrite list_to_set_app_L. simpl. set_solver.
Qed.

Lemma visitA_fold_grows (ok : cell → bool) (c : cell) (ds : list cell) (st : list cell * gset cell) :
  st.2 ⊆ (foldl (visitA width height ok c) st ds).2
  ∧ (list_to_set st.1 ⊆ st.2 →
     list_to_set (C := gset cell) (foldl (visitA width height ok c) st ds).1
       ⊆ (foldl (visitA width height ok c) st ds).2).
Proof.
  revert st. induction ds as [|d ds IH]; intros st; simpl; [done|].
  destruct (visitA_grows ok c st d) as [H1 H2].
  destruct (IH (visitA width height ok c st d)) as [H3 H4].
  split; [set_solver|]. intros Hq. apply H4, H2, Hq.
Qed.

Lemma visit_fold_sim (m1 m0 : Map) (cx cy : Z) (ds : list cell)
    (st : list cell * gset cell) :
  (∀ n : cell, n ∉ st.2 → groundId m1 (n.1 + offsetX) (n.2 + offsetY) z
                          = groundId m0 (n.1 + offsetX) (n.2 + offsetY) z) →
  foldl (visitNeighbour m1 width height z tile_id offsetX offsetY cx cy) st ds
  = foldl (visitA width height (tgt m0) (cx, cy)) st ds.
Proof.
  revert st. induction ds as [|d ds IH]; intros st Hagree; simpl; [done|].
  rewrite (visit_sim m1 m0) by done. apply IH. intros n Hn. apply Hagree.
  destruct (visitA_grows (tgt m0) (cx, cy) st d) as [Hsub _]. set_solver.
Qed.

Lemma markRegion_cons (m : Map) (fuel : nat) (cx cy : Z) (queue : list cell)
    (visited : gset cell) :
  markRegion_loop (S fuel) m width height z tile_id offsetX offsetY ((cx, cy) :: queue) visited
  = markRegion_loop fuel m width height z tile_id offsetX offsetY
      (foldl (visitNeighbour m width height z tile_id offsetX offsetY cx cy)
         (queue, visited) neighbours4).1
      (foldl (visitNeighbour m width height z tile_id offsetX offsetY cx cy)
         (queue, visited) neighbours4).2.
Proof. reflexivity. Qed.

Lemma floodFill_cons (m : Map) (repl : Z) (fuel : nat) (cx cy : Z) (queue : list cell)
    (visited : gset cell) (count : Z) (m' : Map) :
  m' = (if repl =? 0 then m else replaceGround m (cx + offsetX) (cy + offsetY) z repl) →
  floodFill_loop (S fuel) width height z tile_id repl offsetX offsetY m
    ((cx, cy) :: queue) visited count
  = floodFill_loop fuel width height z tile_id repl offsetX offsetY m'
      (foldl (visitNeighbour m' width height z tile_id offsetX offsetY cx cy)
         (queue, visited) neighbours4).1
      (foldl (visitNeighbour m' width height z tile_id offsetX offsetY cx cy)
         (queue, visited) neighbours4).2 (count + 1).
Proof. intros ->. reflexivity. Qed.

Lemma markRegion_sim (m : Map) (fuel : nat) (queue : list cell) (visited : gset cell)
    (popped : list cell) :
  markRegion_loop fuel m width height z tile_id offsetX offsetY queue visited
  = snd <$> bfsA width height (tgt m) fuel queue visited popped.
Proof.
  revert queue visited popped. induction fuel as [|fuel IH]; intros queue visited popped;
    destruct queue as [|[cx cy] queue]; try done.
  rewrite bfsA_cons, markRegion_cons.
  rewrite (visit_fold_sim m m cx cy) by done. apply IH.
Qed.

Lemma floodFill_sim (m0 : Map) (repl : Z) (fuel : nat) :
  ∀ (queue : list cell) (visited : gset cell) (popped P : list cell) (V : gset cell),
  bfsA width height (tgt m0) fuel queue visited popped = Some (P, V) →
  list_to_set popped ∪ list_to_set queue ⊆ visited →
  floodFill_loop fuel width height z tile_id repl offsetX offsetY
    (replaceCells repl m0 popped) queue visited (Z.of_nat (length popped))
  = Some (Z.of_nat (length P), replaceCells repl m0 P).
Proof.
  induction fuel as [|fuel IH]; intros queue visited popped P V Hrun Hsub;
    destruct queue as [|[cx cy] queue]; try done.
  - by injection Hrun as <- <-.
  - by injection Hrun as <- <-.
  - rewrite bfsA_cons in Hrun.
    rewrite (floodFill_cons _ _ _ _ _ _ _ _ (replaceCells repl m0 (popped ++ [(cx, cy)]))).
    2:{ rewrite replaceCells_snoc. by destruct (repl =? 0). }
    rewrite (visit_fold_sim _ m0 cx cy).
    2:{ intros n Hn. apply groundId_replaceCells_notin. simpl in *.
        try rewrite list_to_set_cons in Hsub.
        intros [?| ->%list_elem_of_singleton]%elem_of_app; set_solver. }
    destruct (visitA_fold_grows (tgt m0) (cx, cy) neighbours4 (queue, visited)) as [Hg1 Hg2].
    replace (Z.of_nat (length popped) + 1) with (Z.of_nat (length (popped ++ [(cx, cy)])))
      by (rewrite length_app; simpl; lia).
    apply (IH _ _ _ _ V Hrun). simpl in *.
    try rewrite list_to_set_cons in Hsub. rewrite list_to_set_app_L. simpl.
    assert (list_to_set queue ⊆ visited) by set_solver.
    specialize (Hg2 ltac:(done)). set_solver.
Qed.

End Patches.

(** *** Regions *)

Section Regions.
Variables (width height : Z) (ok : Z * Z → bool).
#[local] Abbreviation cell := (Z * Z)%type.
#[local] Abbreviation conn := (connected width height ok).
#[local] Abbreviation inside := (λ c : cell, in_rect width height c.1 c.2 = true).

Lemma connected_trans (c v v' : cell) : conn c v → conn v v' → conn c v'.
Proof. intros Hcv Hvv'. induction Hvv'; [done|]. by apply connected_step. Qed.

Lemma connected_end (c v : cell) : conn c v → v = c ∨ (ok v = true ∧ inside v).
Proof. intros H. destruct H; [by left|by right]. Qed.

Lemma connected_in (c v : cell) : ok c = true → inside c → conn c v → ok v = true ∧ inside v.
Proof. intros Hc Hin [->|H]%connected_end; done. Qed.

Lemma neighbours4_opp (d : cell) : d ∈ neighbours4 → (- d.1, - d.2) ∈ neighbours4.
Proof.
  unfold neighbours4. rewrite !elem_of_cons, elem_of_nil.
  intros [->|[->|[->|[->|[]]]]]; simpl; tauto.
Qed.

Lemma connected_sym (c v : cell) : ok c = true → inside c → conn c v → conn v c.
Proof.
  intros Hc Hin H. induction H as [|n d Hn IH Hd Hrect Hok]; [constructor|].
  destruct (connected_in c n Hc Hin Hn) as [Hokn Hinn].
  apply connected_trans with n; [|done].
  pose proof (connected_step width height ok (n.1 + d.1, n.2 + d.2) (n.1 + d.1, n.2 + d.2)
                (- d.1, - d.2) (connected_refl _ _ _ _) (neighbours4_opp d Hd)) as Hback.
  cbn [fst snd] in Hback.
  replace (n.1 + d.1 + - d.1) with n.1 in Hback by lia.
  replace (n.2 + d.2 + - d.2) with n.2 in Hback by lia.
  destruct n as [nx ny]. by apply Hback.
Qed.

Lemma connected_mono (ok' : cell → bool) (c v : cell) :
  (∀ u, ok' u = true → ok u = true) → connected width height ok' c v → conn c v.
Proof. intros Hsub H. induction H; [constructor|]. apply connected_step; auto. Qed.

(** Outside the region of [c], taking that region out of [ok] changes no
    region. *)
Lemma connected_without (ok' : cell → bool) (c v v' : cell) :
  ok c = true → inside c → ok v = true → inside v → ¬ conn c v →
  (∀ u, ok' u = true ↔ ok u = true ∧ ¬ conn c u) →
  conn v v' → connected width height ok' v v'.
Proof.
  intros Hc Hinc Hv Hinv Hncv Hok' H.
  induction H as [|n d Hn IH Hd Hrect Hokn]; [constructor|].
  apply connected_step; [done..|]. apply Hok'. split; [done|].
  intros Hcn. apply Hncv. apply connected_trans with (n.1 + d.1, n.2 + d.2); [done|].
  apply connected_sym; [done..|]. by apply connected_step.
Qed.

(** One run of the traversal from [c0], started with [V0] marked. *)
Lemma bfsA_run (V0 : gset cell) (c0 : cell) (fuel : nat) :
  inside c0 → c0 ∉ V0 → (∀ v, v ∈ V0 → ¬ conn c0 v) →
  (Z.to_nat (width * height) ≤ fuel)%nat →
  ∃ (P : list cell) (V : gset cell),
    bfsA width height ok fuel [c0] ({[c0]} ∪ V0) [] = Some (P, V)
    ∧ NoDup P ∧ (∀ v, v ∈ P ↔ conn c0 v) ∧ (∀ v, v ∈ V ↔ v ∈ V0 ∨ v ∈ P).
Proof.
  intros Hin Hc0 Hdisj Hfuel.
  destruct (bfsA_spec width height ok V0 c0 fuel [c0] ({[c0]} ∪ V0) [])
    as (P & V & Hrun & HBI & Hclosed & _).
  - by apply BI_start.
  - intros p d Hp. by apply elem_of_nil in Hp.
  - simpl. lia.
  - exists P, V. split; [done|].
    pose proof HBI as (Hnd & Hvis & _ & _). rewrite app_nil_r in Hnd.
    split; [done|]. split.
    + by apply (bfsA_component width height ok V0 c0 P V).
    + intros v. rewrite Hvis, app_nil_r. done.
Qed.

End Regions.

(** *** The scan of [removeSmallPatches] *)

Lemma replaceCells_nil (z offsetX offsetY repl : Z) (m : Map) :
  replaceCells z offsetX offsetY repl m [] = m.
Proof. unfold replaceCells. by destruct (repl =? 0). Qed.

Lemma tgt_replaceCells (z tile_id offsetX offsetY repl : Z) (m : Map) (P : list (Z * Z)) :
  repl ≠ 0 → repl ≠ tile_id →
  (∀ v, v ∈ P → tgt z tile_id offsetX offsetY m v = true) →
  ∀ u, tgt z tile_id offsetX offsetY (replaceCells z offsetX offsetY repl m P) u = true
       ↔ tgt z tile_id offsetX offsetY m u = true ∧ u ∉ P.
Proof.
  intros H0 Hne HP u. unfold tgt. rewrite !bool_decide_eq_true.
  destruct (decide (u ∈ P)) as [Hin|Hnin].
  - rewrite groundId_replaceCells_in; [|done..|].
    + split; [congruence|tauto].
    + specialize (HP u Hin). unfold tgt in HP. apply bool_decide_eq_true in HP. by rewrite HP.
  - rewrite groundId_replaceCells_notin by done. tauto.
Qed.

Section Scan.
Variables (tile_id min_size width height offsetX offsetY : Z).
#[local] Abbreviation cell := (Z * Z)%type.
#[local] Abbreviation tg := (tgt 7 tile_id offsetX offsetY).
#[local] Abbreviation inside := (λ c : cell, in_rect width height c.1 c.2 = true).
#[local] Abbreviation opposite_id := (if tile_id =? 4608 then 4526 else 4608).

(** [S] is the connected region of [tile_id] around [c], on floor 7. *)
Definition region (m : Map) (c : cell) (S : gset cell) : Prop :=
  ∀ v, v ∈ S ↔ connected width height (tg m) c v.

(** No region of [tile_id] in the rectangle has fewer than [min_size]
    cells. *)
Definition patches_kept (m : Map) : Prop :=
  ∀ (c : cell) (S : gset cell),
    inside c → tg m c = true → region m c S → min_size ≤ Z.of_nat (size S).

Lemma floodFillCount_spec (m : Map) (c : cell) :
  inside c → tg m c = true →
  ∃ P : list cell, NoDup P ∧ (∀ v, v ∈ P ↔ connected width height (tg m) c v)
    ∧ ∀ repl, floodFillCount m c.1 c.2 7 width height tile_id repl offsetX offsetY
              = Some (Z.of_nat (length P), replaceCells 7 offsetX offsetY repl m P).
Proof.
  intros Hin Htg.
  destruct (bfsA_run width height (tg m) ∅ c (floodFill_fuel width height))
    as (P & V & Hrun & Hnd & HP & HV);
    [done | set_solver | set_solver | unfold floodFill_fuel; lia |].
  exists P. split; [done|]. split; [done|]. intros repl. unfold floodFillCount.
  unfold tgt in Htg. apply bool_decide_eq_true in Htg. rewrite Htg, Z.eqb_refl. cbn [negb].
  rewrite (right_id_L ∅ (∪)) in Hrun. destruct c as [cx cy]. cbn [fst snd].
  pose proof (floodFill_sim width height 7 tile_id offsetX offsetY m repl _
                [(cx, cy)] {[(cx, cy)]} [] P V Hrun) as Hsim.
  rewrite replaceCells_nil in Hsim. apply Hsim. set_solver.
Qed.

Lemma region_size (m : Map) (c : cell) (P : list cell) (S : gset cell) :
  NoDup P → (∀ v, v ∈ P ↔ connected width height (tg m) c v) → region m c S →
  size S = length P.
Proof.
  intros Hnd HP HS. rewrite <- (size_list_to_set (C := gset cell)) by done.
  f_equal. apply set_eq. intros v. rewrite elem_of_list_to_set, HP. apply HS.
Qed.

(** What the scan has established when the cells [done] are behind it. *)
Definition SI (m : Map) (visited : gset cell) (done : list cell) : Prop :=
  (∀ v, v ∈ visited → inside v)
  ∧ (∀ v v', v ∈ visited → tg m v = true → connected width height (tg m) v v' →
       v' ∈ visited)
  ∧ (∀ v S, v ∈ visited → tg m v = true → region m v S → min_size ≤ Z.of_nat (size S))
  ∧ (∀ c, c ∈ done → tg m c = true → c ∈ visited).

Lemma SI_fresh (m : Map) (visited : gset cell) (done : list cell) (c : cell) :
  SI m visited done → tg m c = true → inside c → c ∉ visited →
  ∀ v, v ∈ visited → ¬ connected width height (tg m) c v.
Proof.
  intros (Hin & Hcl & _ & _) Htg Hc Hnv v Hv Hcv. apply Hnv.
  destruct (connected_in width height (tg m) c v Htg Hc Hcv) as [Htv Hinv].
  apply (Hcl v c Hv Htv). by apply connected_sym.
Qed.

Lemma markRegion_run (m : Map) (visited : gset cell) (c : cell) :
  inside c → c ∉ visited → (∀ v, v ∈ visited → ¬ connected width height (tg m) c v) →
  ∃ (P : list cell) (V : gset cell),
    markRegion_loop (floodFill_fuel width height) m width height 7 tile_id offsetX offsetY
      [c] ({[c]} ∪ visited) = Some V
    ∧ (∀ v, v ∈ P ↔ connected width height (tg m) c v) ∧ (∀ v, v ∈ V ↔ v ∈ visited ∨ v ∈ P).
Proof.
  intros Hin Hnv Hdisj.
  destruct (bfsA_run width height (tg m) visited c (floodFill_fuel width height))
    as (P & V & Hrun & Hnd & HP & HV); [done.. | unfold floodFill_fuel; lia |].
  exists P, V. split; [|done].
  by rewrite (markRegion_sim width height 7 tile_id offsetX offsetY m _ _ _ []), Hrun.
Qed.

Lemma opposite_id_ne : opposite_id ≠ 0 ∧ opposite_id ≠ tile_id.
Proof. destruct (Z.eqb_spec tile_id 4608); lia. Qed.

Lemma step_spec (m : Map) (visited : gset cell) (done : list cell) (c : cell) :
  SI m visited done → inside c →
  ∃ (m' : Map) (visited' : gset cell),
    removeSmallPatches_cell tile_id min_size width height offsetX offsetY (m, visited) c
    = Some (m', visited')
    ∧ SI m' visited' (done ++ [c]) ∧ (patches_kept m → m' = m).
Proof.
  intros HSI Hc. pose proof HSI as (Hin & Hcl & Hbig & Hdone).
  unfold removeSmallPatches_cell. cbn [fst snd].
  destruct (decide (c ∈ visited)) as [Hv|Hnv].
  { rewrite bool_decide_eq_true_2 by done. exists m, visited. split; [done|]. split; [|done].
    split; [done|]. split; [done|]. split; [done|].
    intros c0 [?| ->%list_elem_of_singleton]%elem_of_app ?; auto. }
  rewrite bool_decide_eq_false_2 by done.
  destruct (tg m c) eqn:Htg.
  2:{ exists m, visited. split.
      - unfold tgt in Htg. apply bool_decide_eq_false in Htg.
        destruct (groundId m _ _ 7) as [gid|]; [|done].
        destruct (Z.eqb_spec gid tile_id) as [->|]; done.
      - split; [|done]. split; [done|]. split; [done|]. split; [done|].
        intros c0 [?| ->%list_elem_of_singleton]%elem_of_app Hc0; [auto|congruence]. }
  destruct (floodFillCount_spec m c Hc Htg) as (P & Hnd & HP & Hff).
  pose proof Htg as Hg. unfold tgt in Hg. apply bool_decide_eq_true in Hg.
  rewrite Hg, Z.eqb_refl. cbn [negb]. rewrite (Hff 0). cbn [mbind option_bind fst].
  assert (HcP : c ∈ P) by (apply HP; constructor).
  assert (Hlen : 0 < Z.of_nat (length P))
    by (destruct P; [by apply elem_of_nil in HcP | simpl; lia]).
  destruct ((Z.of_nat (length P) <? min_size) && (0 <? Z.of_nat (length P))) eqn:Hcond.
  - rewrite (Hff opposite_id). cbn [fmap option_fmap option_map snd mbind option_bind].
    set (m' := replaceCells 7 offsetX offsetY opposite_id m P).
    destruct opposite_id_ne as [Ho0 Hot].
    assert (Htg' : ∀ u, tg m' u = true
                        ↔ tg m u = true ∧ ¬ connected width height (tg m) c u).
    { intros u. unfold m'. rewrite tgt_replaceCells; [|done..|].
      - by rewrite HP.
      - intros v Hv%HP. by apply (connected_in width height (tg m) c v). }
    assert (Hmono : ∀ u v, connected width height (tg m') u v
                           → connected width height (tg m) u v).
    { intros u v. apply connected_mono. intros w Hw%Htg'. tauto. }
    assert (HA : ∀ v, connected width height (tg m') c v → tg m' v = false).
    { intros v Hv. apply not_true_is_false. intros [_ Hn]%Htg'. apply Hn. by apply Hmono. }
    destruct (markRegion_run m' visited c Hc Hnv) as (P' & V' & Hmark & HP' & HV').
    { intros v Hv Hcv. apply (SI_fresh m visited done c HSI Htg Hc Hnv v Hv).
      by apply Hmono. }
    rewrite Hmark. exists m', V'. split; [done|]. split.
    + split; [|split; [|split]].
      * intros v [?|Hv%HP']%HV'; [auto|].
        destruct (connected_end _ _ _ _ _ Hv) as [->|[_ ?]]; done.
      * intros v v' [Hv|Hv%HP']%HV' Htv Hvv'.
        -- apply HV'. left. apply (Hcl v v' Hv); [by apply Htg'|by apply Hmono].
        -- by rewrite (HA v Hv) in Htv.
      * intros v S [Hv|Hv%HP']%HV' Htv HS.
        -- apply Htg' in Htv as [Htv Hncv].
           apply (Hbig v S Hv Htv). intros u. rewrite (HS u). split; [apply Hmono|].
           apply (connected_without width height (tg m) (tg m') c v u); try done.
           by apply Hin.
        -- by rewrite (HA v Hv) in Htv.
      * intros c0 [Hc0| ->%list_elem_of_singleton]%elem_of_app Ht.
        -- apply HV'. left. apply Hdone; [done|]. by apply Htg'.
        -- rewrite (HA c) in Ht; [done|constructor].
    + intros Hkept. exfalso. apply andb_true_iff in Hcond as [Hlt%Z.ltb_lt _].
      specialize (Hkept c (list_to_set P) Hc Htg).
      rewrite size_list_to_set in Hkept by done.
      assert (min_size ≤ Z.of_nat (length P)); [apply Hkept|lia].
      intros v. rewrite elem_of_list_to_set. apply HP.
  - assert (Hge : min_size ≤ Z.of_nat (length P)).
    { apply andb_false_iff in Hcond as [?%Z.ltb_ge|?%Z.ltb_ge]; lia. }
    cbn [mbind option_bind].
    destruct (markRegion_run m visited c Hc Hnv) as (P' & V' & Hmark & HP' & HV').
    { by apply (SI_fresh m visited done c). }
    rewrite Hmark. exists m, V'. split; [done|]. split; [|done].
    split; [|split; [|split]].
    + intros v [?|Hv%HP']%HV'; [auto|].
      destruct (connected_end _ _ _ _ _ Hv) as [->|[_ ?]]; done.
    + intros v v' [Hv|Hv%HP']%HV' Htv Hvv'; apply HV'.
      * left. by apply (Hcl v v').
      * right. apply HP'. by apply connected_trans with v.
    + intros v S [Hv|Hv%HP']%HV' Htv HS.
      * by apply (Hbig v S).
      * rewrite (region_size m c P S Hnd HP); [done|].
        intros u. rewrite (HS u). split; intros Hu.
        -- by apply connected_trans with v.
        -- apply connected_trans with c; [|done]. by apply connected_sym.
    + intros c0 [Hc0| ->%list_elem_of_singleton]%elem_of_app Ht; apply HV'.
      * left. by apply Hdone.
      * right. apply HP'. constructor.
Qed.

Lemma scan_spec (l : list cell) :
  ∀ (m : Map) (visited : gset cell) (done : list cell),
  SI m visited done → (∀ c, c ∈ l → inside c) →
  ∃ (m' : Map) (visited' : gset cell),
    foldlM (removeSmallPatches_cell tile_id min_size width height offsetX offsetY)
      (m, visited) l = Some (m', visited')
    ∧ SI m' visited' (done ++ l) ∧ (patches_kept m → m' = m).
Proof.
  induction l as [|c l IH]; intros m visited done HSI Hl.
  - exists m, visited. by rewrite app_nil_r.
  - destruct (step_spec m visited done c HSI) as (m1 & v1 & Hstep & HSI1 & Hk1);
      [apply Hl; left|].
    destruct (IH m1 v1 (done ++ [c]) HSI1) as (m2 & v2 & Hrest & HSI2 & Hk2);
      [intros; apply Hl; by right|].
    exists m2, v2. split; [|split].
    + cbn [foldlM]. rewrite Hstep. exact Hrest.
    + by rewrite <- app_assoc in HSI2.
    + intros Hk. rewrite <- (Hk1 Hk). apply Hk2. by rewrite (Hk1 Hk).
Qed.

Lemma SI_empty (m : Map) : SI m ∅ [].
Proof.
  split; [|split; [|split]].
  - intros v Hv. by apply elem_of_empty in Hv.
  - intros v v' Hv. by apply elem_of_empty in Hv.
  - intros v S Hv. by apply elem_of_empty in Hv.
  - intros c Hc. by apply elem_of_nil in Hc.
Qed.

Lemma SI_kept (m : Map) (visited : gset cell) :
  SI m visited (cells width height) → patches_kept m.
Proof.
  intros (_ & _ & Hbig & Hdone) c S Hc Htg HS. apply (Hbig c S); [|done..].
  apply Hdone; [by apply elem_of_cells|done].
Qed.

(** A run on sizes that the allocation of [visited] accepts. *)
Lemma removeSmallPatches_run (m : Map) :
  0 ≤ width → 0 ≤ height →
  ∃ m', removeSmallPatches m tile_id min_size width height offsetX offsetY = Some m'
        ∧ patches_kept m' ∧ (patches_kept m → m' = m).
Proof.
  intros Hw Hh. unfold removeSmallPatches.
  destruct (Z.ltb_spec width 0); [lia|]. destruct (Z.ltb_spec height 0); [lia|].
  cbn [orb].
  destruct (scan_spec (cells width height) m ∅ [] (SI_empty m)) as (m' & v' & Hrun & HSI & Hk).
  { intros c. apply elem_of_cells. }
  exists m'. rewrite Hrun. split; [done|]. split; [|done]. by apply (SI_kept m' v').
Qed.

End Scan.

(** C7: whatever the map and the parameters, a run of
    [removeSmallPatches] ends unless a size is negative; after it no
    region of [tile_id] in the rectangle has fewer than [min_size] cells,
    and a second run with the same parameters returns the same map. *)
Theorem removeSmallPatches_idempotent (m : Map)
    (tile_id min_size width height offsetX offsetY : Z) :
  match removeSmallPatches m tile_id min_size width height offsetX offsetY with
  | Some m' =>
      removeSmallPatches m' tile_id min_size width height offsetX offsetY = Some m'
      ∧ patches_kept tile_id min_size width height offsetX offsetY m'
  | None => width < 0 ∨ height < 0
  end.
Proof.
  destruct (Z.lt_ge_cases width 0) as [Hw|Hw].
  { unfold removeSmallPatches. destruct (Z.ltb_spec width 0); [by left|lia]. }
  destruct (Z.lt_ge_cases height 0) as [Hh|Hh].
  { unfold removeSmallPatches. destruct (Z.ltb_spec height 0); [|lia].
    rewrite orb_true_r. by right. }
  destruct (removeSmallPatches_run tile_id min_size width height offsetX offsetY m Hw Hh)
    as (m' & -> & Hkept & _).
  split; [|done].
  destruct (removeSmallPatches_run tile_id min_size width height offsetX offsetY m' Hw Hh)
    as (m'' & Hrun & _ & Hsame).
  by rewrite Hrun, (Hsame Hkept).
Qed.


(** ** The island mask *)

Lemma at2_tabulate {A} (d : A) (f : Z → Z → A) (width height x y : Z) :
  in_rect width height x y = true →
  at2 d ((λ y, (λ x, f x y) <$> seqZ 0 width) <$> seqZ 0 height) x y = f x y.
Proof.
  intros [Hx Hy]%in_rect_spec. unfold at2.
  rewrite (nth_lookup_Some _ (Z.to_nat y) [] ((λ x, f x y) <$> seqZ 0 width)).
  - rewrite (nth_lookup_Some _ (Z.to_nat x) d (f x y)); [done|].
    rewrite list_lookup_fmap, lookup_seqZ_lt by lia. simpl.
    by replace (0 + Z.of_nat (Z.to_nat x)) with x by lia.
  - rewrite list_lookup_fmap, lookup_seqZ_lt by lia. simpl.
    by replace (0 + Z.of_nat (Z.to_nat y)) with y by lia.
Qed.

Lemma at2_applyIslandMask {D : Type} `{DoubleOps D} (d : D) (heightMap : list (list D))
    (config : IslandConfig.t D) (width height x y : Z) :
  in_rect width height x y = true →
  at2 d (applyIslandMask heightMap config width height) x y
  = maskCell config width height x y (at2 (of_int 0) heightMap x y).
Proof.
  intros Hin. unfold applyIslandMask.
  by rewrite (at2_tabulate d
                (λ x y, maskCell config width height x y (at2 (of_int 0) heightMap x y))).
Qed.

Section MaskReal.
Import Reals Lra Zfloor Ideal IslandConfig.
#[local] Open Scope R_scope.

(** The distance of a cell from the centre [(width / 2, height / 2)] of the
    domain, as the specification measures it, and from the middle of the
    cells. *)
Definition centreDistance (width height x y : Z) : R :=
  let dx := (IZR x - IZR width / 2) in
  let dy := (IZR y - IZR height / 2) in
  sqrt (dx * dx + dy * dy).

Definition middleDistance (width height x y : Z) : R :=
  let dx := (IZR x - IZR (width - 1) / 2) in
  let dy := (IZR y - IZR (height - 1) / 2) in
  sqrt (dx * dx + dy * dy).

(** A height field of 1.0 everywhere. *)
Definition allOnes (width height : Z) : list (list R) :=
  replicate (Z.to_nat height) (replicate (Z.to_nat width) 1).

(** The default configuration with [island_size = 1] and
    [island_falloff = 1]. *)
Definition unitIsland : IslandConfig.t R := {|
  noise_scale := dlit 1 100;
  noise_octaves := 4;
  noise_persistence := dlit 1 2;
  noise_lacunarity := of_int 2;
  island_size := 1;
  island_falloff := 1;
  island_threshold := dlit 3 10;
  water_id := 4608;
  ground_id := 4526;
  enable_cleanup := true;
  min_land_patch_size := 4;
  max_water_hole_size := 3;
  smoothing_passes := 2;
  target_floor := 7 |}.


#[local] Ltac unreal :=
  cbn [dadd dsub dmul ddiv dsqrt dpow dlt of_int to_int RealArith] in *.

Lemma Rtrunc_half (w : Z) : (0 ≤ w)%Z → Rtrunc (IZR w / IZR 2) = (w / 2)%Z.
Proof.
  intros Hw. unfold Rtrunc.
  pose proof (Z.div_mod w 2 ltac:(lia)) as Hdiv.
  pose proof (Z.mod_pos_bound w 2 ltac:(lia)) as [Hr0 Hr2].
  pose proof (Z.div_pos w 2 Hw ltac:(lia)) as Hq.
  set (q := (w / 2)%Z) in *. set (r := (w mod 2)%Z) in *.
  assert (HR : IZR w = 2 * IZR q + IZR r) by (rewrite Hdiv, plus_IZR, mult_IZR; done).
  apply IZR_le in Hr0, Hq. assert (Hr1 : IZR r <= 1) by (apply IZR_le; lia).
  destruct (Rlt_dec _ 0) as [Hneg|_]; [exfalso; lra|].
  apply Zfloor_eq. lra.
Qed.

Lemma clamp_mono (a b : R) : a <= b → dmax 0 (dmin 1 a) <= dmax 0 (dmin 1 b).
Proof.
  intros Hab. unfold dmax, dmin. unreal. unfold Rltb.
  repeat (destruct (Rlt_dec _ _)); lra.
Qed.

Lemma Rpower_one (y : R) : Rpower 1 y = 1.
Proof. unfold Rpower. by rewrite ln_1, Rmult_0_r, exp_0. Qed.

Lemma Rpower_gt0 (x y : R) : 0 < Rpower x y.
Proof. unfold Rpower. apply exp_pos. Qed.

Lemma applyFalloff_mono (n n' f : R) :
  1 <= f → n <= n' → applyFalloff n f <= applyFalloff n' f.
Proof.
  intros Hf Hn. unfold applyFalloff. unreal. unfold Rltb, Rpow.
  pose proof (Rpower_gt0 n f) as Hp. pose proof (Rpower_gt0 n' f) as Hp'.
  assert (Hle1 : ∀ u, 0 < u → u <= 1 → Rpower u f <= 1).
  { intros u Hu0 Hu1. rewrite <- (Rpower_one f). apply Rle_Rpower_l; lra. }
  destruct (Rlt_dec n 0), (Rlt_dec n' 0), (Rlt_dec 1 n), (Rlt_dec 1 n'),
    (Req_dec_T f 0), (Rle_dec n 0), (Rle_dec n' 0); try lra.
  - apply Hle1; lra.
  - apply Rle_Rpower_l; lra.
Qed.

Lemma applyFalloff_nonpos (n f : R) : 1 <= f → n <= 0 → applyFalloff n f = 0.
Proof.
  intros Hf Hn. unfold applyFalloff. unreal. unfold Rltb, Rpow.
  destruct (Rlt_dec n 0), (Rlt_dec 1 n), (Req_dec_T f 0), (Rle_dec n 0); lra.
Qed.

Lemma applyFalloff_linear (n : R) : 0 <= n <= 1 → applyFalloff n 1 = n.
Proof.
  intros Hn. unfold applyFalloff. unreal. unfold Rltb, Rpow.
  destruct (Rlt_dec n 0), (Rlt_dec 1 n), (Req_dec_T 1 0), (Rle_dec n 0); try lra.
  apply Rpower_1. lra.
Qed.

Lemma getDistance_nonneg (x y cx cy : Z) : 0 <= getDistance (D := R) x y cx cy.
Proof. unfold getDistance. unreal. apply sqrt_pos. Qed.

Lemma maskCell_mono (config : IslandConfig.t R) (width height x y x' y' : Z) (h0 : R) :
  1 <= island_falloff config →
  getDistance x y (to_int (of_int width / of_int 2 : R)%dbl)
    (to_int (of_int height / of_int 2 : R)%dbl)
  <= getDistance x' y' (to_int (of_int width / of_int 2 : R)%dbl)
       (to_int (of_int height / of_int 2 : R)%dbl) →
  maskCell config width height x' y' h0 <= maskCell config width height x y h0.
Proof.
  intros Hf Hd. unfold maskCell. unreal.
  set (cx := Rtrunc (IZR width / 2)) in *. set (cy := Rtrunc (IZR height / 2)) in *.
  pose proof (getDistance_nonneg x y cx cy) as Hd0.
  set (d := getDistance x y cx cy) in *. set (d' := getDistance x' y' cx cy) in *.
  set (s := IZR (width `min` height) / 2 * island_size config).
  apply clamp_mono. apply Rplus_le_compat_l, Ropp_le_contravar.
  unfold Rdiv. destruct (Rle_dec 0 (/ s)) as [Hs|Hs].
  - apply applyFalloff_mono; [done|]. by apply Rmult_le_compat_r.
  - apply Rnot_le_lt in Hs. set (t := / s) in *. clearbody t d d'.
    assert (d * t <= 0 ∧ d' * t <= 0) as [Hn Hn'] by (split; nra).
    rewrite !applyFalloff_nonpos; (done || lra).
Qed.

Lemma allOnes_at (d : R) (width height x y : Z) :
  in_rect width height x y = true → at2 d (allOnes width height) x y = 1.
Proof.
  intros [Hx Hy]%in_rect_spec. unfold at2, allOnes.
  rewrite (nth_lookup _ _ []), lookup_replicate_2 by lia. simpl.
  by rewrite nth_lookup, lookup_replicate_2 by lia.
Qed.

(** C9 (amended): for [island_falloff >= 1], in real arithmetic, on a
    height field of 1.0 everywhere, the masked value of a cell is
    non-increasing in the Euclidean distance of the cell from the cell
    [(width / 2, height / 2)] (integer division), which is where
    [applyIslandMask] measures from. *)
Theorem applyIslandMask_monotone (config : IslandConfig.t R) (heightMap : list (list R))
    (width height x y x' y' : Z) :
  1 <= island_falloff config →
  (∀ u v, in_rect width height u v = true → at2 0 heightMap u v = 1) →
  in_rect width height x y = true →
  in_rect width height x' y' = true →
  getDistance (D := R) x y (width / 2) (height / 2)
  <= getDistance (D := R) x' y' (width / 2) (height / 2) →
  at2 0 (applyIslandMask heightMap config width height) x' y'
  <= at2 0 (applyIslandMask heightMap config width height) x y.
Proof.
  intros Hf Hones Hin Hin' Hd.
  rewrite !at2_applyIslandMask by done. unreal. rewrite !Hones by done.
  apply maskCell_mono; [done|]. unreal.
  apply in_rect_spec in Hin. rewrite !Rtrunc_half by lia. done.
Qed.

Lemma applyIslandMask_monotone_witness :
  at2 0 (applyIslandMask (allOnes 6 7) unitIsland 6 7) 0 3
  <= at2 0 (applyIslandMask (allOnes 6 7) unitIsland 6 7) 3 3.
Proof.
  apply applyIslandMask_monotone.
  - cbn. lra.
  - intros u v. apply allOnes_at.
  - reflexivity.
  - reflexivity.
  - unfold getDistance. unreal. apply sqrt_le_1_alt.
    rewrite <- !mult_IZR, <- !plus_IZR. apply IZR_le. by apply Z.leb_le.
Defined.

(** C9, as stated, fails where a size is odd: in the 6 x 7 domain the
    cell (0, 3) is nearer to the centre of the domain than the cell
    (5, 1), measured from (3, 3.5) or from the middle (2.5, 3) of the
    cells, and yet its masked value is the smaller one. *)
Lemma applyIslandMask_centre_offset :
  1 <= island_falloff unitIsland
  ∧ centreDistance 6 7 0 3 < centreDistance 6 7 5 1
  ∧ middleDistance 6 7 0 3 < middleDistance 6 7 5 1
  ∧ at2 0 (applyIslandMask (allOnes 6 7) unitIsland 6 7) 0 3
    < at2 0 (applyIslandMask (allOnes 6 7) unitIsland 6 7) 5 1.
Proof.
  split; [cbn; lra|]. split; [|split].
  - unfold centreDistance. cbv zeta. apply sqrt_lt_1_alt. lra.
  - unfold middleDistance. cbv zeta. change (6 - 1)%Z with 5%Z. change (7 - 1)%Z with 6%Z.
    apply sqrt_lt_1_alt. lra.
  - rewrite !at2_applyIslandMask by reflexivity. rewrite !allOnes_at by reflexivity.
    unfold maskCell, getDistance. unreal.
    cbn [island_size island_falloff unitIsland]. rewrite !Rtrunc_half by lia.
    change (0 - 6 / 2)%Z with (-3)%Z. change (3 - 7 / 2)%Z with 0%Z.
    change (5 - 6 / 2)%Z with 2%Z. change (1 - 7 / 2)%Z with (-2)%Z.
    change (6 `min` 7)%Z with 6%Z.
    replace (IZR (-3) * IZR (-3) + 0 * 0) with (3 * 3) by lra.
    rewrite sqrt_square by lra.
    replace (2 * 2 + IZR (-2) * IZR (-2)) with 8 by lra.
    assert (Hr : 0 <= sqrt 8 < 3).
    { split; [apply sqrt_pos|]. apply Rlt_le_trans with (sqrt (3 * 3)).
      - apply sqrt_lt_1_alt. lra.
      - rewrite sqrt_square; lra. }
    set (r := sqrt 8) in *. clearbody r.
    replace (3 / (6 / 2 * 1)) with 1 by lra.
    replace (r / (6 / 2 * 1)) with (r / 3) by lra.
    rewrite !applyFalloff_linear by lra.
    unfold dmax, dmin. unreal. unfold Rltb.
    repeat (destruct (Rlt_dec _ _)); lra.
Qed.

End MaskReal.


(** ** The range of the noise *)






Section NoiseReal.
Import Reals Lra Psatz Zfloor Ideal.
#[local] Open Scope R_scope.













#[local] Ltac unreal :=
  cbn [dadd dsub dmul ddiv dsqrt dpow dlt of_int to_int RealArith] in *.











End NoiseReal.



(** ** Further properties, and instances of the general statements *)

Section MaskRange.
Import Reals Lra Ideal.
#[local] Open Scope R_scope.

(** X5: whatever the configuration, the sizes, the cell and the height
    it holds, the value that [applyIslandMask] stores is clamped to
    [0, 1] (real arithmetic). *)
Lemma maskCell_range (config : IslandConfig.t R) (width height x y : Z) (h : R) :
  0 <= maskCell config width height x y h <= 1.
Proof.
  unfold maskCell, dmax, dmin.
  cbn [dadd dsub dmul ddiv dsqrt dpow dlt of_int to_int RealArith].
  unfold Rltb. repeat (destruct (Rlt_dec _ _)); lra.
Qed.

End MaskRange.

Section Classification.
Context {D : Type} `{DoubleOps D}.
Import IslandConfig.

(** The cell [c] of the rectangle placed at [(offsetX, offsetY)] holds
    water or ground. *)
Definition classified (config : IslandConfig.t D) (offsetX offsetY : Z) (m : Map)
    (c : Z * Z) : Prop :=
  groundId m (c.1 + offsetX) (c.2 + offsetY) (target_floor config) = Some (water_id config)
  ∨ groundId m (c.1 + offsetX) (c.2 + offsetY) (target_floor config)
    = Some (ground_id config).

Lemma placeTile_keeps (config : IslandConfig.t D) (m : Map) (h : D)
    (x y offsetX offsetY : Z) (c : Z * Z) :
  c = (x, y) ∨ classified config offsetX offsetY m c →
  classified config offsetX offsetY (placeTile m config h x y offsetX offsetY) c.
Proof.
  intros Hc. unfold classified, placeTile, groundId, getTile, setTile.
  destruct (decide (c = (x, y))) as [->|Hne].
  - cbn [fst snd]. rewrite lookup_insert_eq. cbn. unfold Item_Create.
    destruct (_ <? _)%dbl; [by left|by right].
  - destruct Hc as [?|Hc]; [done|]. rewrite lookup_insert_ne; [done|].
    intros [= ? ?]. apply Hne. destruct c. cbn [fst snd] in *. f_equal; lia.
Qed.

Lemma placeTiles_loop_total (heightMap : list (list D)) (config : IslandConfig.t D)
    (totalTiles offsetX offsetY : Z) (todo : list (Z * Z)) :
  ∀ (m : Map) (tr : list (Z * Z)) (tilesPlaced : Z) (c : Z * Z),
  c ∈ todo ∨ classified config offsetX offsetY m c →
  classified config offsetX offsetY
    (placeTiles_loop None heightMap config totalTiles offsetX offsetY todo m tr tilesPlaced).1 c.
Proof.
  induction todo as [|[x y] todo IH]; intros m tr tilesPlaced c Hc.
  - destruct Hc as [Hc|Hc]; [by apply elem_of_nil in Hc|done].
  - cbn [placeTiles_loop]. apply IH.
    destruct Hc as [[->|Hc]%elem_of_cons|Hc]; [right|by left|right];
      apply placeTile_keeps; auto.
Qed.

(** X6: without a callback, [placeTiles] leaves every cell of the
    rectangle with the water or the ground id of the configuration, none
    without ground. *)
Lemma placeTiles_total (m : Map) (heightMap : list (list D)) (config : IslandConfig.t D)
    (width height offsetX offsetY : Z) (tr : list (Z * Z)) (x y : Z) :
  in_rect width height x y = true →
  classified config offsetX offsetY
    (placeTiles None m heightMap config width height offsetX offsetY tr).1 (x, y).
Proof.
  intros Hin. unfold placeTiles. apply placeTiles_loop_total. left.
  by apply elem_of_cells.
Qed.

Context `{StdLib}.

(** X7: a callback that answers [false] at its first invocation makes
    [generateIslandMap] return [false] with the map untouched. *)
Lemma island_refused_at_start (g : MapGenerator) (m : Map) (config : IslandConfig.t D)
    (width height : Z) (seed : string) (sx sy : Z) (cb : ProgressCallback) :
  progress_callback g = Some cb → cb [(0, 100)] = false →
  0 < width → 0 < height →
  generateIslandMap g (Some m) config width height seed sx sy
  = Some {| success := false; host := Some m; calls := [(0, 100)];
            generator := seedRandom seed g |}.
Proof.
  intros Hcb Hno Hw Hh. unfold generateIslandMap.
  destruct (Z.leb_spec width 0); [lia|]. destruct (Z.leb_spec height 0); [lia|].
  cbn [orb]. rewrite seedRandom_callback, Hcb. cbn [invoke]. by rewrite Hno.
Qed.

End Classification.

(** Binary64 with a [std::pow] that is never called here. *)
Definition binary64 : DoubleOps float := IEEE.Float64 (λ b _, b).

(** The generator of the reference library. *)
Definition referenceGenerator : MapGenerator := @MapGenerator_new Reference.Lib.

Lemma island_invalid_input_witness :
  @generateIslandMap float binary64 Reference.Lib
    referenceGenerator (Some ∅) (@IslandConfig.defaults float binary64) 0 64 "seed" 0 0
  = Some {| success := false; host := Some ∅; calls := [];
            generator := referenceGenerator |}.
Proof. apply island_invalid_input. right. left. lia. Defined.

Lemma generateRooms_defined_witness :
  is_Some (@generateRooms float Reference.Lib defaultDungeon 64 64 (MT.seed 1)).
Proof. apply generateRooms_defined; vm_compute; discriminate. Defined.

Lemma dungeon_cancel_returns_false_witness :
  success <$> @generateDungeonMap float binary64 Reference.Lib
                (list Node.t) Reference.ListQueue
                (setProgressCallback (Some (λ _, false)) referenceGenerator)
                (Some ∅) (@emptyDungeon float binary64) 8 8 "1" 0 0
  = Some false.
Proof.
  set (g := setProgressCallback (Some (λ _, false)) referenceGenerator).
  assert (∃ o, @generateDungeonMap float binary64 Reference.Lib
                 (list Node.t) Reference.ListQueue g (Some ∅) (@emptyDungeon float binary64) 8 8 "1" 0 0
               = Some o ∧ refused (λ _, false) (calls o) = true) as (o & Hrun & Href).
  { eexists. split; vm_compute; reflexivity. }
  rewrite Hrun. cbn [fmap option_fmap option_map]. f_equal.
  exact (dungeon_cancel_returns_false g (Some ∅) (@emptyDungeon float binary64) 8 8 "1" 0 0
           (λ _, false) o eq_refl Hrun Href).
Defined.

Lemma placeTiles_total_witness :
  classified (@IslandConfig.defaults float binary64) 0 0
    (@placeTiles float binary64 None ∅ [] (@IslandConfig.defaults float binary64)
       2 2 0 0 []).1 (1, 1).
Proof. apply placeTiles_total. reflexivity. Defined.

Lemma island_refused_at_start_witness :
  @generateIslandMap float binary64 Reference.Lib
    (setProgressCallback (Some (λ _, false)) referenceGenerator) (Some ∅)
    (@IslandConfig.defaults float binary64) 64 64 "seed1" 0 0
  = Some {| success := false; host := Some ∅; calls := [(0, 100)];
            generator := @seedRandom Reference.Lib "seed1"
                           (setProgressCallback (Some (λ _, false)) referenceGenerator) |}.
Proof. by apply (island_refused_at_start _ _ _ _ _ _ _ _ (λ _, false)). Defined.
